(** * IntervalAVLMap: an AVL tree keyed by the low end point of an interval

    Shallow embedding of [Header Files/IntervalAVLMap.h] and its properties.

    - [TKey] is [int] in every instantiation that compiles: [CalcMax] builds
      [std::max({key.hi, leftMax, rightMax})] from a [TKey] and two [int]s,
      and an initializer list needs one element type.  Keys, the cached
      [max] and the [height] counter are modelled as [Z].  The code does no
      arithmetic on keys; on counters it computes [1 + max] and a
      difference, which stay far from [2^31] on the height of any tree that
      fits in memory.
    - A [std::unique_ptr<Node>] is either empty or owns one heap object; the
      object carries its address, so that pointer identity and destruction
      can be spoken about.  The ownership graph of the source is this tree,
      but for the local copy of a node in [Delete], which the model treats
      where it is made.
    - Behaviour the C++ standard leaves undefined (a null dereference, a
      value-returning function that flows off its end, an object destroyed
      while a [unique_ptr] still owns it) is an explicit [Undefined] outcome.
    - The overloads [Find], [Insert] and [Delete] that take the node keep the
      name with the suffix [_node]; the public ones act on the map.

    The first part holds the definitions: the code, sequences of
    operations, the invariants of the data model and the reference
    definitions the code is compared with.  The second part holds the
    properties, general ones first, then one section per claim. *)

From Stdlib Require Import ZArith List Bool Lia String Sorted Permutation.
Import ListNotations.
Open Scope Z_scope.

(** ** Outcomes *)

Inductive fault : Type :=
| NullDeref                        (* an empty pointer is dereferenced *)
| MissingReturn                    (* control reaches the end of a non-void function *)
| ReleasedWhileOwned (a : nat)     (* object [a] destroyed, a tree slot still owns it *)
| DoubleRelease (a : nat).         (* object [a] destroyed a second time *)

Inductive outcome (A : Type) : Type :=
| Ok (x : A)
| Undefined (f : fault).

Arguments Ok {A} x.
Arguments Undefined {A} f.

Definition bind {A B : Type} (c : outcome A) (k : A -> outcome B) : outcome B :=
  match c with
  | Ok x => k x
  | Undefined f => Undefined f
  end.

Notation "x <- c ;; k" := (bind c (fun x => k))
  (at level 61, c at next level, right associativity).
Notation "' pat <- c ;; k" := (bind c (fun x => match x with pat => k end))
  (at level 61, pat pattern, c at next level, right associativity).

Definition defined {A : Type} (c : outcome A) : Prop :=
  exists x, c = Ok x.

(** ** Data model *)

Definition addr := nat.

(** [struct Key { TKey lo, hi; }] *)
Record Key : Type := mkKey { lo : Z; hi : Z }.

Section Map.

Context {TValue : Type}.

(** [std::unique_ptr<Node<TKey,TValue>>]: empty, or the owner of the node
    object at address [a] with the fields of [struct Node]. *)
Inductive NodePtr : Type :=
| nullptr
| Node (a : addr) (key : Key) (value : TValue) (max : Z) (height : Z)
       (left right : NodePtr).

(** [p.get()] *)
Definition get (p : NodePtr) : option addr :=
  match p with
  | nullptr => None
  | Node a _ _ _ _ _ _ => Some a
  end.

Definition is_null (p : NodePtr) : bool :=
  match p with
  | nullptr => true
  | _ => false
  end.

(** The class [IntervalAVLMap] has the single member [m_pRoot].  The two
    other fields are the allocator's side of the story: the next address
    [std::make_unique] hands out, and the objects destroyed so far. *)
Record IntervalAVLMap : Type := mkMap {
  m_pRoot : NodePtr;
  next_addr : addr;
  released : list addr
}.

(** [IntervalAVLMap() = default] *)
Definition empty_map : IntervalAVLMap :=
  {| m_pRoot := nullptr; next_addr := 0%nat; released := [] |}.

(** ** Observations on a subtree *)

(** In-order list of the stored mappings. *)
Fixpoint entries (p : NodePtr) : list (Key * TValue) :=
  match p with
  | nullptr => []
  | Node _ k v _ _ l r => entries l ++ (k, v) :: entries r
  end.

(** Addresses of the objects a pointer owns, directly or not (in the order
    of [entries]). *)
Fixpoint addrs (p : NodePtr) : list addr :=
  match p with
  | nullptr => []
  | Node a _ _ _ _ l r => addrs l ++ a :: addrs r
  end.

(** Height of the subtree as it is, whatever the counters say. *)
Fixpoint depth (p : NodePtr) : Z :=
  match p with
  | nullptr => -1
  | Node _ _ _ _ _ l r => 1 + Z.max (depth l) (depth r)
  end.

(** ** Private helpers of the class *)

Definition GetMax (node : NodePtr) : Z :=
  match node with
  | nullptr => -1
  | Node _ _ _ m _ _ _ => m
  end.

Definition GetHeight (node : NodePtr) : Z :=
  match node with
  | nullptr => -1
  | Node _ _ _ _ h _ _ => h
  end.

Definition CalcHeight (node : NodePtr) : Z :=
  match node with
  | nullptr => -1
  | Node _ _ _ _ _ l r =>
      let leftSubNode := match l with nullptr => -1 | Node _ _ _ _ h _ _ => h end in
      let rightSubNode := match r with nullptr => -1 | Node _ _ _ _ h _ _ => h end in
      1 + Z.max leftSubNode rightSubNode
  end.

(** [GetBalance] dereferences its argument without a test. *)
Definition GetBalance (node : NodePtr) : outcome Z :=
  match node with
  | nullptr => Undefined NullDeref
  | Node _ _ _ _ _ l r => Ok (GetHeight l - GetHeight r)
  end.

Definition CalcMax (node : NodePtr) : NodePtr :=
  match node with
  | nullptr => nullptr
  | Node a k v _ h l r =>
      let leftMax := match l with nullptr => -1 | Node _ _ _ m _ _ _ => m end in
      let rightMax := match r with nullptr => -1 | Node _ _ _ m _ _ _ => m end in
      Node a k v (Z.max (hi k) (Z.max leftMax rightMax)) h l r
  end.

(** [temp = move(node); node = move(temp->left); temp->left = move(node->right);
    CalcMax(temp); node->right = move(temp); CalcMax(node);]
    Every target of a move is empty when it is assigned, so no object is
    destroyed. *)
Definition RightRotation (node : NodePtr) : outcome NodePtr :=
  match node with
  | nullptr => Undefined NullDeref
  | Node a k v m h l r =>
      match l with
      | nullptr => Undefined NullDeref
      | Node la lk lv lm lh ll lr =>
          let temp := CalcMax (Node a k v m h lr r) in
          Ok (CalcMax (Node la lk lv lm lh ll temp))
      end
  end.

Definition LeftRotation (node : NodePtr) : outcome NodePtr :=
  match node with
  | nullptr => Undefined NullDeref
  | Node a k v m h l r =>
      match r with
      | nullptr => Undefined NullDeref
      | Node ra rk rv rm rh rl rr =>
          let temp := CalcMax (Node a k v m h l rl) in
          Ok (CalcMax (Node ra rk rv rm rh temp rr))
      end
  end.

(** [if (p.get() != nullptr) p->height = CalcHeight(p.get());] *)
Definition refresh_height (p : NodePtr) : NodePtr :=
  match p with
  | nullptr => nullptr
  | Node a k v m _ l r => Node a k v m (CalcHeight p) l r
  end.

(** [node->height = CalcHeight(node.get());] *)
Definition store_height (node : NodePtr) : outcome NodePtr :=
  match node with
  | nullptr => Undefined NullDeref
  | Node a k v m _ l r => Ok (Node a k v m (CalcHeight node) l r)
  end.

(** The three assignments that end both rotating branches of [Balance]:
    the counter of [node] first, from the counters its children have at
    that moment, then the counter of each child. *)
Definition store_heights (node : NodePtr) : outcome NodePtr :=
  match node with
  | nullptr => Undefined NullDeref
  | Node a k v m _ l r =>
      Ok (Node a k v m (CalcHeight node) (refresh_height l) (refresh_height r))
  end.

Definition Balance (node : NodePtr) : outcome NodePtr :=
  balance <- GetBalance node ;;
  match node with
  | nullptr => Undefined NullDeref
  | Node a k v m h l r =>
      if balance <? -1 then
        subbalance <- GetBalance r ;;
        node1 <- (if subbalance >=? 1
                  then r1 <- RightRotation r ;; Ok (Node a k v m h l r1)
                  else Ok node) ;;
        node2 <- LeftRotation node1 ;;
        store_heights node2
      else if balance >? 1 then
        subbalance <- GetBalance l ;;
        node1 <- (if subbalance <=? -1
                  then l1 <- LeftRotation l ;; Ok (Node a k v m h l1 r)
                  else Ok node) ;;
        node2 <- RightRotation node1 ;;
        store_heights node2
      else Ok node
  end.

(** [FindMinimum]: the [else] branch calls itself and drops the result; the
    function then ends without a [return]. *)
Fixpoint FindMinimum (node : NodePtr) : outcome NodePtr :=
  match node with
  | nullptr => Undefined NullDeref
  | Node _ _ _ _ _ l _ =>
      if is_null l then Ok node
      else _ <- FindMinimum l ;; Undefined MissingReturn
  end.

(** ** Find *)

Definition overlaps (lo' hi' : Z) (k : Key) : bool :=
  (hi' >? lo k) && (lo' <? hi k).

(** [Find(lo, hi, node)]: both recursive branches lack a [return]. *)
Fixpoint Find_node (lo' hi' : Z) (node : NodePtr) : outcome NodePtr :=
  match node with
  | nullptr => Ok nullptr
  | Node _ k _ _ _ l r =>
      if overlaps lo' hi' k then Ok node
      else if is_null l || (GetMax l <? lo') then
        _ <- Find_node lo' hi' r ;; Undefined MissingReturn
      else
        _ <- Find_node lo' hi' l ;; Undefined MissingReturn
  end.

(** [Find(lo, hi)] *)
Definition Find (lo' hi' : Z) (m : IntervalAVLMap) : outcome NodePtr :=
  if is_null (m_pRoot m) then Ok nullptr
  else Find_node lo' hi' (m_pRoot m).

(** ** Insert *)

(** Lines 136-139: [Balance(node); node->height = CalcHeight(node);
    CalcMax(node); return node;] *)
Definition Insert_unwind (node : NodePtr) : outcome NodePtr :=
  node1 <- Balance node ;;
  node2 <- store_height node1 ;;
  Ok (CalcMax node2).

(** [Insert(key, value, node)].  [fresh] is the address [std::make_unique]
    returns if the call reaches an empty slot.  The function returns a
    reference to the slot it was given, so the caller's
    [node->left = std::move(Insert(...))] moves a pointer onto itself and
    changes nothing: the result below is the new content of the slot. *)
Fixpoint Insert_node (fresh : addr) (key : Key) (value : TValue)
         (node : NodePtr) : outcome NodePtr :=
  match node with
  | nullptr => Ok (Node fresh key value (hi key) 0 nullptr nullptr)
  | Node a k v m h l r =>
      if lo key <? lo k then
        l1 <- Insert_node fresh key value l ;;
        Insert_unwind (Node a k v m h l1 r)
      else if lo key >? lo k then
        r1 <- Insert_node fresh key value r ;;
        Insert_unwind (Node a k v m h l r1)
      else
        Ok (Node a k value m h l r)
  end.

(** [Insert(lo, hi, value)]: the raw pointer it returns is shown as the node
    it points to ([nullptr] for a null pointer).  The allocator sets one
    address aside for every call that gets past the test, used or not. *)
Definition Insert (lo' hi' : Z) (value : TValue) (m : IntervalAVLMap)
  : outcome (NodePtr * IntervalAVLMap) :=
  if hi' <? lo' then Ok (nullptr, m)
  else
    let key := mkKey lo' hi' in
    root <- Insert_node (next_addr m) key value (m_pRoot m) ;;
    Ok (root, {| m_pRoot := root;
                 next_addr := S (next_addr m);
                 released := released m |}).

(** ** Delete *)

(** Lines 193-194: [Balance(node); node->height = CalcHeight(node);] *)
Definition Delete_unwind (node : NodePtr) : outcome NodePtr :=
  node1 <- Balance node ;;
  store_height node1.

(** End of the two-children block: the local [min] was built by
    [Node(const Node&)], whose [left(node.left.get())] and
    [right(node.right.get())] make [min] a second owner of the successor's
    children.  Its destructor destroys what these pointers hold ([right]
    first, the member declared last).  [owned] is the right subtree as the
    inner [Delete] left it.  An object found there is destroyed while the
    tree owns it, and the [Balance(node)] that follows reads it through
    [node->right]; an object not found there was destroyed by the inner
    [Delete] and is destroyed a second time.  Neither execution has a
    defined continuation. *)
Definition release_alias (p : option addr) (owned : NodePtr) : outcome unit :=
  match p with
  | None => Ok tt
  | Some a =>
      if existsb (Nat.eqb a) (addrs owned)
      then Undefined (ReleasedWhileOwned a)
      else Undefined (DoubleRelease a)
  end.

(** [Delete(key, node)]: the new content of the slot and the objects
    destroyed by the call. *)
Fixpoint Delete_node (key : Z) (node : NodePtr) : outcome (NodePtr * list addr) :=
  match node with
  | nullptr => Ok (nullptr, [])
  | Node a k v m h l r =>
      if lo k <? key then
        '(r1, rel) <- Delete_node key r ;;
        node1 <- Delete_unwind (Node a k v m h l r1) ;;
        Ok (node1, rel)
      else if key <? lo k then
        '(l1, rel) <- Delete_node key l ;;
        node1 <- Delete_unwind (Node a k v m h l1 r) ;;
        Ok (node1, rel)
      else if h =? 0 then
        (* node.reset(): the node and all it owns *)
        Ok (nullptr, addrs node)
      else if is_null r then
        (* tmp = move(node->left); node = move(tmp); *)
        node1 <- Delete_unwind l ;;
        Ok (node1, [a])
      else if is_null l then
        node1 <- Delete_unwind r ;;
        Ok (node1, [a])
      else
        min <- FindMinimum r ;;
        match min with
        | nullptr => Undefined NullDeref
        | Node _ mk mv _ _ ml mr =>
            '(r1, rel) <- Delete_node (lo mk) r ;;
            _ <- release_alias (get mr) r1 ;;
            _ <- release_alias (get ml) r1 ;;
            node1 <- Delete_unwind (Node a mk mv m h l r1) ;;
            Ok (node1, rel)
        end
  end.

(** [Delete(key)] *)
Definition Delete (key : Z) (m : IntervalAVLMap) : outcome IntervalAVLMap :=
  '(root, rel) <- Delete_node key (m_pRoot m) ;;
  Ok {| m_pRoot := root;
        next_addr := next_addr m;
        released := released m ++ rel |}.

End Map.

Arguments NodePtr TValue : clear implicits.
Arguments IntervalAVLMap TValue : clear implicits.

(** ** Sequences of operations on a map *)

Section Runs.

Context {TValue : Type}.

Inductive Op : Type :=
| OpInsert (lo' hi' : Z) (value : TValue)
| OpDelete (key : Z).

Definition apply_op (m : IntervalAVLMap TValue) (o : Op)
  : outcome (IntervalAVLMap TValue) :=
  match o with
  | OpInsert lo' hi' value => '(_, m1) <- Insert lo' hi' value m ;; Ok m1
  | OpDelete key => Delete key m
  end.

Fixpoint run (ops : list Op) (m : IntervalAVLMap TValue)
  : outcome (IntervalAVLMap TValue) :=
  match ops with
  | [] => Ok m
  | o :: ops' => m1 <- apply_op m o ;; run ops' m1
  end.

(** An insertion whose [hi] is above the [-1] that [CalcMax] takes for an
    absent child. *)
Definition insertion_above_sentinel (o : Op) : Prop :=
  match o with
  | OpInsert _ hi' _ => -1 <= hi'
  | OpDelete _ => False
  end.

End Runs.

Arguments Op TValue : clear implicits.

(** ** Invariants of the data model *)

Section Invariants.

Context {TValue : Type}.
Implicit Types p l r node : NodePtr TValue.

(** Every [height] counter holds the height of its subtree. *)
Fixpoint heights_exact p : Prop :=
  match p with
  | nullptr => True
  | Node _ _ _ _ h l r =>
      h = 1 + Z.max (depth l) (depth r) /\ heights_exact l /\ heights_exact r
  end.

(** AVL balance: the heights of the two subtrees of a node differ by at most 1. *)
Fixpoint balanced p : Prop :=
  match p with
  | nullptr => True
  | Node _ _ _ _ _ l r =>
      -1 <= depth l - depth r <= 1 /\ balanced l /\ balanced r
  end.

Definition lo_of (e : Key * TValue) : Z := lo (fst e).

(** BST ordering by [lo]. *)
Fixpoint bst p : Prop :=
  match p with
  | nullptr => True
  | Node _ k _ _ _ l r =>
      Forall (fun e => lo_of e < lo k) (entries l) /\
      Forall (fun e => lo k < lo_of e) (entries r) /\
      bst l /\ bst r
  end.

(** Augmentation: the cached [max] is the maximum of the node's own [hi] and
    of the caches of its children, an absent child counting for [-1]. *)
Fixpoint max_ok p : Prop :=
  match p with
  | nullptr => True
  | Node _ k _ m _ l r =>
      m = Z.max (hi k) (Z.max (GetMax l) (GetMax r)) /\ max_ok l /\ max_ok r
  end.

Definition valid p : Prop :=
  bst p /\ balanced p /\ heights_exact p /\ max_ok p.

(** The part of [valid] that does not speak of the cached [max]. *)
Definition shape_ok p : Prop :=
  bst p /\ balanced p /\ heights_exact p.

(** Exclusive ownership: no object is owned twice, no destroyed object is
    still owned, and every object was handed out by the allocator. *)
Definition ownership_ok (m : IntervalAVLMap TValue) : Prop :=
  NoDup (addrs (m_pRoot m) ++ released m) /\
  Forall (fun a => (a < next_addr m)%nat) (addrs (m_pRoot m) ++ released m).

(** The in-order list of a search tree is sorted by [lo], strictly. *)
Definition lo_lt (e1 e2 : Key * TValue) : Prop := lo_of e1 < lo_of e2.

Definition sorted (es : list (Key * TValue)) : Prop := StronglySorted lo_lt es.

(** What an insertion does to the sorted list of mappings: a fresh [lo] gets
    its place, a [lo] that is there keeps its stored interval and takes the
    new value. *)
Fixpoint upsert (key : Key) (value : TValue) (es : list (Key * TValue))
  : list (Key * TValue) :=
  match es with
  | [] => [(key, value)]
  | (k, v) :: es' =>
      if lo key <? lo k then (key, value) :: es
      else if lo key >? lo k then (k, v) :: upsert key value es'
      else (k, value) :: es'
  end.

(** What a deletion is to do to it: the mappings with that [lo] go. *)
Definition remove_lo (key : Z) (es : list (Key * TValue)) : list (Key * TValue) :=
  filter (fun e => negb (lo_of e =? key)) es.

End Invariants.

(** ** Reference definitions the code is compared with *)

Section Reference.

Context {TValue : Type}.
Implicit Types p l r node : NodePtr TValue.

Definition left_of p : NodePtr TValue :=
  match p with
  | nullptr => nullptr
  | Node _ _ _ _ _ l _ => l
  end.

Definition right_of p : NodePtr TValue :=
  match p with
  | nullptr => nullptr
  | Node _ _ _ _ _ _ r => r
  end.

(** The cached [max] of a node agrees with its interval and the caches of
    its children; the [height] counter agrees with the counters of its
    children. *)
Definition max_fresh p : Prop := CalcMax p = p.

Definition height_fresh p : Prop := refresh_height p = p.

(** The search path of the stabbing query, every branch handing back what
    the subtree it descends into yields: the node itself if its interval
    overlaps the query, else the right subtree when there is no left child
    or the left child's [max] is below the query's [lo], else the left
    subtree. *)
Fixpoint find_path (lo' hi' : Z) (node : NodePtr TValue) : NodePtr TValue :=
  match node with
  | nullptr => nullptr
  | Node _ k _ _ _ l r =>
      if overlaps lo' hi' k then node
      else if is_null l || (GetMax l <? lo') then find_path lo' hi' r
      else find_path lo' hi' l
  end.

Definition root_overlaps (lo' hi' : Z) p : bool :=
  match p with
  | nullptr => false
  | Node _ k _ _ _ _ _ => overlaps lo' hi' k
  end.

(** The mapping a node pointer leads to. *)
Definition entry_of p : option (Key * TValue) :=
  match p with
  | nullptr => None
  | Node _ k v _ _ _ _ => Some (k, v)
  end.

(** The subtree [Delete(key, node)] stops its descent at: the node whose
    [lo] is [key], or nothing. *)
Fixpoint lookup_lo (key : Z) p : NodePtr TValue :=
  match p with
  | nullptr => nullptr
  | Node _ k _ _ _ l r =>
      if lo k <? key then lookup_lo key r
      else if key <? lo k then lookup_lo key l
      else p
  end.

Definition is_leaf p : bool :=
  match p with
  | Node _ _ _ _ _ nullptr nullptr => true
  | _ => false
  end.

(** The nodes [Delete] removes with a defined result: those with at most one
    child, and those whose right child is a leaf. *)
Definition deletable p : bool :=
  match p with
  | nullptr => true
  | Node _ _ _ _ _ l r => is_null l || is_null r || is_leaf r
  end.

(** Which object is the parent of which: a tree of addresses. *)
Inductive shape : Type :=
| Tip
| Bin (a : addr) (l r : shape).

Fixpoint skeleton p : shape :=
  match p with
  | nullptr => Tip
  | Node a _ _ _ _ l r => Bin a (skeleton l) (skeleton r)
  end.

(** The two rotations of the textbook. *)
Definition rotate_right (s : shape) : shape :=
  match s with
  | Bin a (Bin la ll lr) r => Bin la ll (Bin a lr r)
  | _ => s
  end.

Definition rotate_left (s : shape) : shape :=
  match s with
  | Bin a l (Bin ra rl rr) => Bin ra (Bin a l rl) rr
  | _ => s
  end.

Definition on_left (f : shape -> shape) (s : shape) : shape :=
  match s with
  | Tip => Tip
  | Bin a l r => Bin a (f l) r
  end.

Definition on_right (f : shape -> shape) (s : shape) : shape :=
  match s with
  | Tip => Tip
  | Bin a l r => Bin a l (f r)
  end.

(** The table of the rebalancing step: [bf] is the balance factor of the
    node, [bf_left] and [bf_right] those of its children. *)
Definition rebalance_table (bf bf_left bf_right : Z) (s : shape) : shape :=
  if bf <? -1 then
    if 1 <=? bf_right then rotate_left (on_right rotate_right s)
    else rotate_left s
  else if 1 <? bf then
    if bf_left <=? -1 then rotate_right (on_left rotate_left s)
    else rotate_right s
  else s.

(** Balance factor of a subtree from the counters of its children ([0] for
    an empty subtree, which has none). *)
Definition balance_factor p : Z :=
  GetHeight (left_of p) - GetHeight (right_of p).

End Reference.

(** ** Further reference definitions *)

Section MoreReference.

Context {TValue : Type}.
Implicit Types p l r node : NodePtr TValue.

(** The tree with the value of the node that holds [lo key] replaced, all
    else as it was. *)
Fixpoint replace_value (key : Key) (value : TValue) p : NodePtr TValue :=
  match p with
  | nullptr => nullptr
  | Node a k v m h l r =>
      if lo key <? lo k then Node a k v m h (replace_value key value l) r
      else if lo key >? lo k then Node a k v m h l (replace_value key value r)
      else Node a k value m h l r
  end.

(** The cached [max] is not below the node's own [hi] nor below the caches
    of its children: it may be too high, never too low. *)
Fixpoint max_upper p : Prop :=
  match p with
  | nullptr => True
  | Node _ k _ m _ l r =>
      Z.max (hi k) (Z.max (GetMax l) (GetMax r)) <= m /\ max_upper l /\ max_upper r
  end.

(** Number of nodes. *)
Fixpoint size p : Z :=
  match p with
  | nullptr => 0
  | Node _ _ _ _ _ l r => 1 + size l + size r
  end.

(** In-order list of the nodes: the object and the mapping it holds. *)
Fixpoint cells p : list (addr * (Key * TValue)) :=
  match p with
  | nullptr => []
  | Node a k v _ _ l r => cells l ++ (a, (k, v)) :: cells r
  end.

(** What an operation is to the sorted list of mappings: a rejected
    insertion changes nothing, an accepted one is [upsert], a deletion is
    [remove_lo]. *)
Definition abstract_op (es : list (Key * TValue)) (o : Op TValue)
  : list (Key * TValue) :=
  match o with
  | OpInsert lo' hi' value =>
      if hi' <? lo' then es else upsert (mkKey lo' hi') value es
  | OpDelete key => remove_lo key es
  end.

(** An operation that inserts no [hi] below the [-1] that [CalcMax] takes
    for an absent child. *)
Definition above_sentinel (o : Op TValue) : Prop :=
  match o with
  | OpInsert _ hi' _ => -1 <= hi'
  | OpDelete _ => True
  end.

End MoreReference.

(** ** Small trees

    The tree in the third frame of the insertions 1, 2, 3, before [Balance];
    the tree the insertions 2, 1, 3 leave, and the map that holds it. *)

Definition example_chain : NodePtr string :=
  Node 0%nat (mkKey 1 2) "a"%string 3 1 nullptr
    (Node 1%nat (mkKey 2 3) "b"%string 4 1 nullptr
       (Node 2%nat (mkKey 3 4) "c"%string 4 0 nullptr nullptr)).

Definition example_tree : NodePtr string :=
  Node 0%nat (mkKey 2 3) "b"%string 4 1
    (Node 1%nat (mkKey 1 2) "a"%string 2 0 nullptr nullptr)
    (Node 2%nat (mkKey 3 4) "c"%string 4 0 nullptr nullptr).

Definition example_map : IntervalAVLMap string :=
  {| m_pRoot := example_tree; next_addr := 3%nat; released := [] |}.

(** * Properties *)

#[local] Arguments Z.add _ _ : simpl never.
#[local] Arguments Z.sub _ _ : simpl never.
#[local] Arguments Z.max _ _ : simpl never.
#[local] Arguments Z.ltb _ _ : simpl never.
#[local] Arguments Z.leb _ _ : simpl never.
#[local] Arguments Z.gtb _ _ : simpl never.
#[local] Arguments Z.geb _ _ : simpl never.
#[local] Arguments Z.eqb _ _ : simpl never.

Ltac inv H := inversion H; subst; clear H.

(** Case analysis on the first [match] (or [if]) of the goal or a hypothesis. *)
Ltac break_match :=
  match goal with
  | |- context [match ?x with _ => _ end] => destruct x eqn:?
  | H : context [match ?x with _ => _ end] |- _ => destruct x eqn:?
  end.

Section Facts.

Context {TValue : Type}.
Implicit Types p l r node t : NodePtr TValue.

Lemma bind_Ok {A B} (c : outcome A) (k : A -> outcome B) (y : B) :
  bind c k = Ok y -> exists x, c = Ok x /\ k x = Ok y.
Proof. destruct c; simpl; [eauto | discriminate]. Qed.

Lemma depth_lower p : -1 <= depth p.
Proof. induction p; simpl; lia. Qed.

Lemma depth_nonnull p : p <> nullptr -> 0 <= depth p.
Proof.
  destruct p as [|a k v m h l r]; [congruence|]; intros _; simpl.
  pose proof (depth_lower l); lia.
Qed.

Lemma depth_null p : depth p = -1 -> p = nullptr.
Proof.
  destruct p as [|a k v m h l r]; [reflexivity|]; simpl.
  pose proof (depth_lower l); lia.
Qed.

Lemma GetHeight_exact p : heights_exact p -> GetHeight p = depth p.
Proof. destruct p; simpl; [reflexivity | intuition]. Qed.

Lemma CalcHeight_Node a k v m h l r :
  CalcHeight (Node a k v m h l r) = 1 + Z.max (GetHeight l) (GetHeight r).
Proof. reflexivity. Qed.

Lemma CalcMax_Node a k v m h l r :
  CalcMax (Node a k v m h l r) =
  Node a k v (Z.max (hi k) (Z.max (GetMax l) (GetMax r))) h l r.
Proof. reflexivity. Qed.

Lemma refresh_height_exact p : heights_exact p -> refresh_height p = p.
Proof.
  destruct p as [|a k v m h l r]; [reflexivity|]; simpl; intros (Hh & Hl & Hr).
  fold (GetHeight l) (GetHeight r).
  rewrite (GetHeight_exact l), (GetHeight_exact r) by assumption.
  congruence.
Qed.

(** *** Rotations and [Balance] keep the stored mappings and the objects *)

Lemma entries_CalcMax p : entries (CalcMax p) = entries p.
Proof. destruct p; reflexivity. Qed.

Lemma entries_refresh_height p : entries (refresh_height p) = entries p.
Proof. destruct p; reflexivity. Qed.

Lemma RightRotation_entries p t :
  RightRotation p = Ok t -> entries t = entries p.
Proof.
  destruct p as [|a k v m h [|la lk lv lm lh ll lr] r]; simpl; try discriminate.
  intros H; inv H; simpl. now rewrite <- app_assoc.
Qed.

Lemma LeftRotation_entries p t :
  LeftRotation p = Ok t -> entries t = entries p.
Proof.
  destruct p as [|a k v m h l [|ra rk rv rm rh rl rr]]; simpl; try discriminate.
  intros H; inv H; simpl. now rewrite <- app_assoc.
Qed.

Lemma store_heights_entries p t :
  store_heights p = Ok t -> entries t = entries p.
Proof.
  destruct p; simpl; try discriminate. intros H; inv H; simpl.
  now rewrite !entries_refresh_height.
Qed.

Lemma store_height_entries p t :
  store_height p = Ok t -> entries t = entries p.
Proof. destruct p; simpl; try discriminate. now intros H; inv H. Qed.

Lemma Balance_entries p t : Balance p = Ok t -> entries t = entries p.
Proof.
  unfold Balance. intros H.
  apply bind_Ok in H as (b & Hb & H).
  destruct p as [|a k v m h l r]; [discriminate|].
  destruct (b <? -1).
  - apply bind_Ok in H as (sb & _ & H).
    apply bind_Ok in H as (n1 & Hn1 & H).
    apply bind_Ok in H as (n2 & Hn2 & H).
    rewrite (store_heights_entries _ _ H), (LeftRotation_entries _ _ Hn2).
    destruct (sb >=? 1).
    + apply bind_Ok in Hn1 as (r1 & Hr1 & Hn1). inv Hn1. simpl.
      now rewrite (RightRotation_entries _ _ Hr1).
    + now inv Hn1.
  - destruct (b >? 1).
    + apply bind_Ok in H as (sb & _ & H).
      apply bind_Ok in H as (n1 & Hn1 & H).
      apply bind_Ok in H as (n2 & Hn2 & H).
      rewrite (store_heights_entries _ _ H), (RightRotation_entries _ _ Hn2).
      destruct (sb <=? -1).
      * apply bind_Ok in Hn1 as (l1 & Hl1 & Hn1). inv Hn1. simpl.
        now rewrite (LeftRotation_entries _ _ Hl1).
      * now inv Hn1.
    + now inv H.
Qed.

Lemma Balance_nonnull p t : Balance p = Ok t -> t <> nullptr.
Proof.
  unfold Balance. intros H.
  apply bind_Ok in H as (b & Hb & H).
  destruct p as [|a k v m h l r]; [discriminate|].
  destruct (b <? -1); [|destruct (b >? 1)].
  - apply bind_Ok in H as (sb & _ & H).
    apply bind_Ok in H as (n1 & Hn1 & H).
    apply bind_Ok in H as (n2 & Hn2 & H).
    destruct n2; simpl in H; [discriminate | inv H; discriminate].
  - apply bind_Ok in H as (sb & _ & H).
    apply bind_Ok in H as (n1 & Hn1 & H).
    apply bind_Ok in H as (n2 & Hn2 & H).
    destruct n2; simpl in H; [discriminate | inv H; discriminate].
  - inv H. discriminate.
Qed.

End Facts.

Arguments GetHeight {TValue} !node : simpl nomatch.
Arguments GetMax {TValue} !node : simpl nomatch.
Arguments CalcHeight {TValue} node : simpl never.

Section Rebalancing.

Context {TValue : Type}.
Implicit Types p l r node t : NodePtr TValue.

Ltac heights :=
  simpl in *; rewrite ?refresh_height_exact by assumption;
  rewrite ?CalcHeight_Node; simpl;
  repeat match goal with
  | H : heights_exact ?x |- context [GetHeight ?x] =>
      rewrite (GetHeight_exact x H)
  end.

Ltac depth_facts :=
  repeat match goal with
  | |- context [depth ?x] =>
      lazymatch goal with
      | _ : -1 <= depth x |- _ => fail
      | _ => pose proof (depth_lower x)
      end
  | _ : context [depth ?x] |- _ =>
      lazymatch goal with
      | _ : -1 <= depth x |- _ => fail
      | _ => pose proof (depth_lower x)
      end
  end.

(** What [Balance] followed by the caller's [node->height = CalcHeight(node)]
    achieves at a node whose subtrees are in order and differ in height by
    at most 2: this is the situation of every frame of [Insert] and [Delete]
    on the way back up. *)
Lemma Balance_store_height a k v m h l r :
  heights_exact l -> heights_exact r -> balanced l -> balanced r ->
  -2 <= depth l - depth r <= 2 ->
  exists t1 t,
    Balance (Node a k v m h l r) = Ok t1 /\ store_height t1 = Ok t /\
    heights_exact t /\ balanced t /\
    Z.max (depth l) (depth r) <= depth t <= 1 + Z.max (depth l) (depth r) /\
    (-1 <= depth l - depth r <= 1 -> depth t = 1 + Z.max (depth l) (depth r)).
Proof.
  intros Hl Hr Bl Br Hd.
  unfold Balance, GetBalance, bind.
  rewrite (GetHeight_exact l Hl), (GetHeight_exact r Hr).
  destruct (Z.ltb_spec (depth l - depth r) (-1)) as [Hlt|Hge].
  - (* right heavy *)
    destruct r as [|ra rk rv rm rh rl rr].
    { simpl in *. pose proof (depth_lower l). lia. }
    simpl in Hr, Br. destruct Hr as (Hrh & Hrl & Hrr). destruct Br as (Brd & Brl & Brr).
    rewrite (GetHeight_exact rl Hrl), (GetHeight_exact rr Hrr).
    rewrite Z.geb_leb.
    destruct (Z.leb_spec 1 (depth rl - depth rr)) as [Hsub|Hsub].
    + destruct rl as [|rla rlk rlv rlm rlh rll rlr].
      { simpl in *. pose proof (depth_lower rr). lia. }
      simpl in Hrl, Brl.
      destruct Hrl as (Hrlh & Hrll & Hrlr). destruct Brl as (Brld & Brll & Brlr).
      do 2 eexists. split; [reflexivity|]. split; [reflexivity|].
      heights. depth_facts. repeat split; try assumption; lia.
    + do 2 eexists. split; [reflexivity|]. split; [reflexivity|].
      heights. depth_facts. repeat split; try assumption; lia.
  - rewrite Z.gtb_ltb.
    destruct (Z.ltb_spec 1 (depth l - depth r)) as [Hgt|Hle].
    + destruct l as [|la lk lv lm lh ll lr].
      { simpl in *. pose proof (depth_lower r). lia. }
      simpl in Hl, Bl. destruct Hl as (Hlh & Hll & Hlr). destruct Bl as (Bld & Bll & Blr).
      rewrite (GetHeight_exact ll Hll), (GetHeight_exact lr Hlr).
      destruct (Z.leb_spec (depth ll - depth lr) (-1)) as [Hsub|Hsub].
      * destruct lr as [|lra lrk lrv lrm lrh lrl lrr].
        { simpl in *. pose proof (depth_lower ll). lia. }
        simpl in Hlr, Blr.
        destruct Hlr as (Hlrh & Hlrl & Hlrr). destruct Blr as (Blrd & Blrl & Blrr).
        do 2 eexists. split; [reflexivity|]. split; [reflexivity|].
        heights. depth_facts. repeat split; try assumption; lia.
      * do 2 eexists. split; [reflexivity|]. split; [reflexivity|].
        heights. depth_facts. repeat split; try assumption; lia.
    + do 2 eexists. split; [reflexivity|]. split; [reflexivity|].
      heights. depth_facts. repeat split; try assumption; lia.
Qed.

End Rebalancing.

(** *** Search trees and sorted lists *)

Section Sorted.

Context {TValue : Type}.
Implicit Types p l r node t : NodePtr TValue.
Implicit Types es : list (Key * TValue).

Lemma sorted_app es1 e es2 :
  sorted (es1 ++ e :: es2) <->
  sorted es1 /\ sorted es2 /\
  Forall (fun x => lo_of x < lo_of e) es1 /\
  Forall (fun x => lo_of e < lo_of x) es2.
Proof.
  unfold sorted. induction es1 as [|x es1 IH]; simpl.
  - split.
    + intros H. inv H. repeat split; auto; constructor.
    + intros (_ & H2 & _ & H4). constructor; assumption.
  - split.
    + intros H. inv H. apply IH in H2 as (S1 & S2 & F1 & F2).
      apply Forall_app in H3 as (G1 & G2). inv G2.
      repeat split; auto; constructor; auto.
    + intros (S1 & S2 & F1 & F2). inv S1. inv F1.
      constructor.
      * apply IH. repeat split; assumption.
      * apply Forall_app. split; [assumption|].
        constructor; [assumption|].
        eapply Forall_impl; [|exact F2]. unfold lo_lt, lo_of in *.
        intros; simpl in *; lia.
Qed.

Lemma bst_sorted p : bst p <-> sorted (entries p).
Proof.
  induction p as [|a k v m h l IHl r IHr]; simpl.
  - split; [constructor | trivial].
  - rewrite sorted_app, IHl, IHr. unfold lo_of at 2 4. simpl. tauto.
Qed.

Lemma upsert_left key value es1 e es2 :
  lo key < lo_of e ->
  upsert key value (es1 ++ e :: es2) = upsert key value es1 ++ e :: es2.
Proof.
  intros Hlt. induction es1 as [|[k v] es1 IH]; simpl.
  - destruct e as [k v]. unfold lo_of in Hlt; simpl in Hlt.
    destruct (Z.ltb_spec (lo key) (lo k)); [reflexivity | lia].
  - destruct (lo key <? lo k); [reflexivity|].
    destruct (lo key >? lo k); [|reflexivity].
    simpl. now rewrite IH.
Qed.

Lemma upsert_right key value es1 e es2 :
  Forall (fun x => lo_of x < lo key) es1 -> lo_of e < lo key ->
  upsert key value (es1 ++ e :: es2) = es1 ++ e :: upsert key value es2.
Proof.
  intros F Hlt. induction F as [|[k v] es1 Hx F IH]; simpl.
  - destruct e as [k v]. unfold lo_of in Hlt; simpl in Hlt.
    destruct (Z.ltb_spec (lo key) (lo k)); [lia|].
    rewrite Z.gtb_ltb. destruct (Z.ltb_spec (lo k) (lo key)); [reflexivity | lia].
  - unfold lo_of in Hx; simpl in Hx.
    destruct (Z.ltb_spec (lo key) (lo k)); [lia|].
    rewrite Z.gtb_ltb. destruct (Z.ltb_spec (lo k) (lo key)); [|lia].
    now rewrite IH.
Qed.

Lemma upsert_here key value es1 k v es2 :
  Forall (fun x => lo_of x < lo key) es1 -> lo k = lo key ->
  upsert key value (es1 ++ (k, v) :: es2) = es1 ++ (k, value) :: es2.
Proof.
  intros F Heq. induction F as [|[k' v'] es1 Hx F IH]; simpl.
  - destruct (Z.ltb_spec (lo key) (lo k)); [lia|].
    rewrite Z.gtb_ltb. destruct (Z.ltb_spec (lo k) (lo key)); [lia | reflexivity].
  - unfold lo_of in Hx; simpl in Hx.
    destruct (Z.ltb_spec (lo key) (lo k')); [lia|].
    rewrite Z.gtb_ltb. destruct (Z.ltb_spec (lo k') (lo key)); [|lia].
    now rewrite IH.
Qed.

Lemma upsert_Forall (P : Key * TValue -> Prop) key value es :
  P (key, value) ->
  (forall k v, In (k, v) es -> lo k = lo key -> P (k, value)) ->
  Forall P es -> Forall P (upsert key value es).
Proof.
  intros Hnew Hupd F. induction F as [|[k v] es Hx F IH]; simpl.
  - constructor; [assumption | constructor].
  - destruct (Z.ltb_spec (lo key) (lo k)).
    + constructor; [assumption|]. constructor; assumption.
    + rewrite Z.gtb_ltb. destruct (Z.ltb_spec (lo k) (lo key)).
      * constructor; [assumption|]. apply IH.
        intros k' v' Hin. apply (Hupd k' v'). now right.
      * constructor; [|assumption]. apply (Hupd k v); [now left | lia].
Qed.

Lemma upsert_sorted key value es : sorted es -> sorted (upsert key value es).
Proof.
  unfold sorted. induction 1 as [|[k v] es S IH F]; simpl.
  - constructor; constructor.
  - destruct (Z.ltb_spec (lo key) (lo k)).
    + constructor; [constructor; assumption|].
      constructor; [unfold lo_lt, lo_of; simpl; lia|].
      eapply Forall_impl; [|exact F]. unfold lo_lt, lo_of; simpl; intros; lia.
    + rewrite Z.gtb_ltb. destruct (Z.ltb_spec (lo k) (lo key)).
      * constructor; [assumption|].
        apply upsert_Forall; [unfold lo_lt, lo_of; simpl; lia | | assumption].
        intros k' v' Hin _. rewrite Forall_forall in F. apply (F _ Hin).
      * constructor; [assumption|].
        eapply Forall_impl; [|exact F]. unfold lo_lt, lo_of; simpl; intros; lia.
Qed.

End Sorted.

(** *** Insertion keeps the invariants *)

Section InsertFacts.

Context {TValue : Type}.
Implicit Types p l r node t : NodePtr TValue.

Lemma depth_CalcMax p : depth (CalcMax p) = depth p.
Proof. destruct p; reflexivity. Qed.

Lemma heights_exact_CalcMax p : heights_exact (CalcMax p) <-> heights_exact p.
Proof. destruct p; simpl; tauto. Qed.

Lemma balanced_CalcMax p : balanced (CalcMax p) <-> balanced p.
Proof. destruct p; simpl; tauto. Qed.

Lemma CalcMax_nonnull p : p <> nullptr -> CalcMax p <> nullptr.
Proof. destruct p; simpl; congruence. Qed.

Lemma store_height_nonnull p t : store_height p = Ok t -> t <> nullptr.
Proof. destruct p; simpl; [discriminate|]. intros H; inv H. discriminate. Qed.

Lemma Insert_unwind_entries p t : Insert_unwind p = Ok t -> entries t = entries p.
Proof.
  unfold Insert_unwind. intros H.
  apply bind_Ok in H as (t1 & H1 & H).
  apply bind_Ok in H as (t2 & H2 & H). inv H.
  now rewrite entries_CalcMax, (store_height_entries _ _ H2), (Balance_entries _ _ H1).
Qed.

Lemma Insert_unwind_heights a k v m h l r :
  heights_exact l -> heights_exact r -> balanced l -> balanced r ->
  -2 <= depth l - depth r <= 2 ->
  exists t,
    Insert_unwind (Node a k v m h l r) = Ok t /\ t <> nullptr /\
    heights_exact t /\ balanced t /\
    Z.max (depth l) (depth r) <= depth t <= 1 + Z.max (depth l) (depth r) /\
    (-1 <= depth l - depth r <= 1 -> depth t = 1 + Z.max (depth l) (depth r)).
Proof.
  intros Hl Hr Bl Br Hd.
  destruct (Balance_store_height a k v m h l r Hl Hr Bl Br Hd)
    as (t1 & t & E1 & E2 & He & Hb & Hd1 & Hd2).
  exists (CalcMax t). unfold Insert_unwind. rewrite E1. simpl. rewrite E2. simpl.
  rewrite heights_exact_CalcMax, balanced_CalcMax, depth_CalcMax.
  repeat split; try assumption; try lia.
  apply CalcMax_nonnull. eapply store_height_nonnull; eassumption.
Qed.

(** [Insert(key, value, node)] returns on every tree whose counters are right
    and that is balanced; the result is again such a tree, one level higher
    at most. *)
Lemma Insert_node_heights fresh key value t :
  heights_exact t -> balanced t ->
  exists t',
    Insert_node fresh key value t = Ok t' /\ t' <> nullptr /\
    heights_exact t' /\ balanced t' /\
    depth t <= depth t' <= depth t + 1.
Proof.
  induction t as [|a k v m h l IHl r IHr]; intros He Hb.
  - eexists. split; [reflexivity|]. simpl. repeat split; try lia. discriminate.
  - simpl in He, Hb. destruct He as (Hh & Hl & Hr). destruct Hb as (Hd & Bl & Br).
    simpl. destruct (lo key <? lo k); [|destruct (lo key >? lo k)].
    + destruct (IHl Hl Bl) as (l1 & E & _ & Hl1 & Bl1 & Hd1). rewrite E. simpl.
      destruct (Insert_unwind_heights a k v m h l1 r Hl1 Hr Bl1 Br)
        as (t' & E' & Hn & He' & Hb' & Hd2 & Hd3); [lia|].
      exists t'. repeat split; try assumption; lia.
    + destruct (IHr Hr Br) as (r1 & E & _ & Hr1 & Br1 & Hd1). rewrite E. simpl.
      destruct (Insert_unwind_heights a k v m h l r1 Hl Hr1 Bl Br1)
        as (t' & E' & Hn & He' & Hb' & Hd2 & Hd3); [lia|].
      exists t'. repeat split; try assumption; lia.
    + eexists. split; [reflexivity|]. simpl. repeat split; try assumption; try lia.
      discriminate.
Qed.

(** On a search tree [Insert(key, value, node)] acts on the sorted list of
    mappings as [upsert] does. *)
Lemma Insert_node_entries fresh key value t t' :
  bst t -> Insert_node fresh key value t = Ok t' ->
  entries t' = upsert key value (entries t).
Proof.
  revert t'. induction t as [|a k v m h l IHl r IHr]; intros t' Hb H.
  - inv H. reflexivity.
  - simpl in Hb. destruct Hb as (Fl & Fr & Bl & Br).
    simpl in H. destruct (Z.ltb_spec (lo key) (lo k)) as [Hlt|Hge].
    + apply bind_Ok in H as (l1 & E & H).
      rewrite (Insert_unwind_entries _ _ H). simpl.
      rewrite (IHl l1 Bl E). symmetry. now apply upsert_left.
    + rewrite Z.gtb_ltb in H. destruct (Z.ltb_spec (lo k) (lo key)) as [Hgt|Hle].
      * apply bind_Ok in H as (r1 & E & H).
        rewrite (Insert_unwind_entries _ _ H). simpl.
        rewrite (IHr r1 Br E). symmetry. apply upsert_right; [|assumption].
        eapply Forall_impl; [|exact Fl]. simpl; intros; lia.
      * inv H. simpl. symmetry. apply upsert_here; [|lia].
        eapply Forall_impl; [|exact Fl]. simpl; intros; lia.
Qed.

Lemma Insert_node_bst fresh key value t t' :
  bst t -> Insert_node fresh key value t = Ok t' -> bst t'.
Proof.
  intros Hb H. apply bst_sorted.
  rewrite (Insert_node_entries _ _ _ _ _ Hb H).
  apply upsert_sorted. now apply bst_sorted.
Qed.

(** The cached [max] along the path is right again after [Insert]'s unwind,
    whatever rotation took place. *)
Lemma Insert_unwind_max_ok a k v m h l r t :
  max_ok l -> max_ok r -> Insert_unwind (Node a k v m h l r) = Ok t -> max_ok t.
Proof.
  intros Ml Mr H. unfold Insert_unwind, Balance, GetBalance, bind in H.
  repeat (break_match; try discriminate);
    repeat match goal with
    | E : Ok _ = Ok _ |- _ => inv E
    | E : RightRotation _ = Ok _ |- _ => unfold RightRotation in E
    | E : LeftRotation _ = Ok _ |- _ => unfold LeftRotation in E
    | E : store_heights _ = Ok _ |- _ => unfold store_heights in E
    | E : store_height _ = Ok _ |- _ => unfold store_height in E
    end;
    repeat (break_match; try discriminate);
    repeat match goal with
    | E : Ok _ = Ok _ |- _ => inv E
    | E : Node _ _ _ _ _ _ _ = Node _ _ _ _ _ _ _ |- _ => inv E
    | E : CalcMax _ = Node _ _ _ _ _ _ _ |- _ => rewrite CalcMax_Node in E
    | E : CalcMax _ = nullptr |- _ => rewrite CalcMax_Node in E
    end;
    try discriminate.
  all: simpl in *; intuition.
Qed.

Lemma Insert_node_max_ok fresh key value t t' :
  -1 <= hi key -> max_ok t -> Insert_node fresh key value t = Ok t' -> max_ok t'.
Proof.
  intros Hhi. revert t'. induction t as [|a k v m h l IHl r IHr]; intros t' Hm H.
  - inv H. simpl. repeat split; lia.
  - simpl in Hm. destruct Hm as (Hmax & Ml & Mr).
    simpl in H. destruct (lo key <? lo k); [|destruct (lo key >? lo k)].
    + apply bind_Ok in H as (l1 & E & H).
      eapply Insert_unwind_max_ok; [| |exact H]; eauto.
    + apply bind_Ok in H as (r1 & E & H).
      eapply Insert_unwind_max_ok; [| |exact H]; eauto.
    + inv H. simpl. auto.
Qed.

(** [Insert(key, value, node)] on a valid tree: it returns, and the tree it
    leaves is valid. *)
Lemma Insert_node_valid fresh key value t :
  -1 <= hi key -> valid t ->
  exists t',
    Insert_node fresh key value t = Ok t' /\ t' <> nullptr /\ valid t' /\
    entries t' = upsert key value (entries t).
Proof.
  intros Hhi (Hb & Ha & He & Hm).
  destruct (Insert_node_heights fresh key value t He Ha)
    as (t' & E & Hn & He' & Ha' & _).
  exists t'. split; [assumption|]. split; [assumption|]. split.
  - repeat split; try assumption.
    + eapply Insert_node_bst; eassumption.
    + eapply Insert_node_max_ok; eassumption.
  - eapply Insert_node_entries; eassumption.
Qed.

End InsertFacts.

(** *** Deletion, where it returns *)

Section DeleteFacts.

Context {TValue : Type}.
Implicit Types p l r node t : NodePtr TValue.
Implicit Types es : list (Key * TValue).

Lemma remove_lo_app key es1 es2 :
  remove_lo key (es1 ++ es2) = remove_lo key es1 ++ remove_lo key es2.
Proof. apply filter_app. Qed.

Lemma remove_lo_none key es :
  Forall (fun e => lo_of e <> key) es -> remove_lo key es = es.
Proof.
  induction 1 as [|e es He F IH]; [reflexivity|]. unfold remove_lo in *. simpl.
  destruct (Z.eqb_spec (lo_of e) key); [contradiction|]. simpl. now rewrite IH.
Qed.

Lemma remove_lo_below key es :
  Forall (fun e => lo_of e < key) es -> remove_lo key es = es.
Proof.
  intros F. apply remove_lo_none. eapply Forall_impl; [|exact F].
  simpl; intros; lia.
Qed.

Lemma remove_lo_above key es :
  Forall (fun e => key < lo_of e) es -> remove_lo key es = es.
Proof.
  intros F. apply remove_lo_none. eapply Forall_impl; [|exact F].
  simpl; intros; lia.
Qed.

Lemma remove_lo_cons_ne key e es :
  lo_of e <> key -> remove_lo key (e :: es) = e :: remove_lo key es.
Proof.
  intros Hne. unfold remove_lo. simpl.
  now destruct (Z.eqb_spec (lo_of e) key).
Qed.

Lemma remove_lo_cons_eq key e es :
  lo_of e = key -> remove_lo key (e :: es) = remove_lo key es.
Proof.
  intros He. unfold remove_lo. simpl.
  now destruct (Z.eqb_spec (lo_of e) key).
Qed.

Lemma Delete_unwind_entries p t : Delete_unwind p = Ok t -> entries t = entries p.
Proof.
  unfold Delete_unwind. intros H.
  apply bind_Ok in H as (t1 & H1 & H).
  now rewrite (store_height_entries _ _ H), (Balance_entries _ _ H1).
Qed.

Lemma Delete_unwind_heights a k v m h l r :
  heights_exact l -> heights_exact r -> balanced l -> balanced r ->
  -2 <= depth l - depth r <= 2 ->
  exists t,
    Delete_unwind (Node a k v m h l r) = Ok t /\ t <> nullptr /\
    heights_exact t /\ balanced t /\
    Z.max (depth l) (depth r) <= depth t <= 1 + Z.max (depth l) (depth r) /\
    (-1 <= depth l - depth r <= 1 -> depth t = 1 + Z.max (depth l) (depth r)).
Proof.
  intros Hl Hr Bl Br Hd.
  destruct (Balance_store_height a k v m h l r Hl Hr Bl Br Hd)
    as (t1 & t & E1 & E2 & He & Hb & Hd1 & Hd2).
  exists t. unfold Delete_unwind. rewrite E1. simpl.
  repeat split; try assumption; try lia.
  eapply store_height_nonnull; eassumption.
Qed.

(** The unwind at a subtree that is in order already (the child spliced in
    for a node with one child). *)
Lemma Delete_unwind_splice p :
  p <> nullptr -> heights_exact p -> balanced p ->
  exists t,
    Delete_unwind p = Ok t /\ heights_exact t /\ balanced t /\
    depth t = depth p.
Proof.
  destruct p as [|a k v m h l r]; [congruence|]. intros _ He Hb.
  simpl in He, Hb. destruct He as (Hh & Hl & Hr). destruct Hb as (Hd & Bl & Br).
  destruct (Delete_unwind_heights a k v m h l r Hl Hr Bl Br)
    as (t & E & _ & He & Hb & _ & Hd2); [lia|].
  exists t. simpl. intuition.
Qed.

Lemma FindMinimum_Ok p t :
  FindMinimum p = Ok t ->
  t = p /\ exists a k v m h r, p = Node a k v m h nullptr r.
Proof.
  destruct p as [|a k v m h l r]; simpl; [discriminate|].
  destruct l; simpl.
  - intros H; inv H. split; [reflexivity|]. repeat eexists.
  - intros H. apply bind_Ok in H as (x & _ & H). discriminate.
Qed.

Lemma release_alias_Ok q p : release_alias q p = Ok tt -> q = None.
Proof.
  destruct q as [a|]; simpl; [|reflexivity].
  destruct (existsb (Nat.eqb a) (addrs p)); discriminate.
Qed.

Lemma get_None p : get p = None -> p = nullptr.
Proof. destruct p; simpl; [reflexivity | discriminate]. Qed.

(** Whenever [Delete(key, node)] returns on a balanced search tree with right
    counters, it leaves such a tree, at most one level lower, from which
    exactly the mapping with that [lo] is gone. *)
Lemma Delete_node_spec key t :
  heights_exact t -> balanced t -> bst t ->
  forall t' rel, Delete_node key t = Ok (t', rel) ->
    heights_exact t' /\ balanced t' /\
    depth t - 1 <= depth t' <= depth t /\
    entries t' = remove_lo key (entries t).
Proof.
  induction t as [|a k v m h l IHl r IHr]; intros He Hb Hs t' rel H.
  - inv H. simpl. repeat split; try lia. 
  - simpl in He, Hb, Hs.
    destruct He as (Hh & Hl & Hr). destruct Hb as (Hd & Bl & Br).
    destruct Hs as (Fl & Fr & Sl & Sr).
    simpl in H.
    destruct (Z.ltb_spec (lo k) key) as [Hlt|Hge].
    { (* into the right subtree *)
      clear Hh. apply bind_Ok in H as ([r1 rel1] & E & H).
      apply bind_Ok in H as (n1 & E1 & H). inv H.
      destruct (IHr Hr Br Sr _ _ E) as (Hr1 & Br1 & Dr1 & Er1).
      destruct (Delete_unwind_heights a k v m h l r1 Hl Hr1 Bl Br1)
        as (t1 & E' & _ & He' & Hb' & Hd1 & Hd2); [lia|].
      rewrite E' in E1. inv E1.
      repeat split; try assumption; try (simpl; lia).
      rewrite (Delete_unwind_entries _ _ E'). simpl.
      rewrite remove_lo_app, remove_lo_cons_ne by (unfold lo_of; simpl; lia).
      rewrite Er1, (remove_lo_below key (entries l)); [reflexivity|].
      eapply Forall_impl; [|exact Fl]. simpl; intros; lia. }
    destruct (Z.ltb_spec key (lo k)) as [Hlt|Hge'].
    { (* into the left subtree *)
      clear Hh. apply bind_Ok in H as ([l1 rel1] & E & H).
      apply bind_Ok in H as (n1 & E1 & H). inv H.
      destruct (IHl Hl Bl Sl _ _ E) as (Hl1 & Bl1 & Dl1 & El1).
      destruct (Delete_unwind_heights a k v m h l1 r Hl1 Hr Bl1 Br)
        as (t1 & E' & _ & He' & Hb' & Hd1 & Hd2); [lia|].
      rewrite E' in E1. inv E1.
      repeat split; try assumption; try (simpl; lia).
      rewrite (Delete_unwind_entries _ _ E'). simpl.
      rewrite remove_lo_app, remove_lo_cons_ne by (unfold lo_of; simpl; lia).
      rewrite El1, (remove_lo_above key (entries r)); [reflexivity|].
      eapply Forall_impl; [|exact Fr]. simpl; intros; lia. }
    assert (Hk : lo k = key) by lia.
    assert (Rl : remove_lo key (entries l) = entries l).
    { apply remove_lo_below. now rewrite <- Hk. }
    assert (Rr : remove_lo key (entries r) = entries r).
    { apply remove_lo_above. now rewrite <- Hk. }
    pose proof (depth_lower l) as Dl. pose proof (depth_lower r) as Dr.
    destruct (Z.eqb_spec h 0) as [Hz|Hnz].
    { (* a leaf *)
      inv H.
      assert (l = nullptr) by (apply depth_null; lia).
      assert (r = nullptr) by (apply depth_null; lia).
      subst l r. cbn [entries app].
      rewrite remove_lo_cons_eq by reflexivity.
      simpl. repeat split; lia. }
    destruct r as [|ra rk rv rm rh rl rr].
    { (* only a left child *)
      simpl in H. apply bind_Ok in H as (n1 & E1 & H). inv H.
      destruct (Delete_unwind_splice l) as (t1 & E' & He' & Hb' & Hd');
        try assumption.
      { intros ->. simpl in *. lia. }
      rewrite E' in E1. inv E1.
      repeat split; try assumption; try (simpl in *; lia).
      rewrite (Delete_unwind_entries _ _ E'). simpl.
      rewrite remove_lo_app, remove_lo_cons_eq by reflexivity.
      rewrite Rl. simpl. now rewrite app_nil_r. }
    destruct l as [|la lk lv lm lh ll lr].
    { (* only a right child *)
      cbn [is_null] in H. apply bind_Ok in H as (n1 & E1 & H). inv H.
      destruct (Delete_unwind_splice (Node ra rk rv rm rh rl rr))
        as (t1 & E' & He' & Hb' & Hd'); try assumption; [discriminate|].
      rewrite E' in E1. inv E1.
      repeat split; try assumption; try (simpl in *; lia).
      rewrite (Delete_unwind_entries _ _ E').
      cbn [entries app] in *.
      rewrite remove_lo_cons_eq by reflexivity. now rewrite Rr. }
    (* two children: the call returns only if the right child is a leaf *)
    cbn [is_null] in H.
    apply bind_Ok in H as (mn & Emin & H).
    apply FindMinimum_Ok in Emin as (-> & (a0 & k0 & v0 & m0 & h0 & r0 & Eq)).
    inv Eq.
    apply bind_Ok in H as ([r1 rel1] & E & H).
    apply bind_Ok in H as ([] & Ea1 & H).
    apply bind_Ok in H as ([] & Ea2 & H).
    apply bind_Ok in H as (n1 & E1 & H). inv H.
    apply release_alias_Ok, get_None in Ea1. subst r0.
    assert (Hrh0 : h0 = 0) by (simpl in Hr; lia).
    simpl in E. rewrite Z.ltb_irrefl in E. subst h0. simpl in E. inv E.
    destruct (Delete_unwind_heights a k0 v0 m (1 + Z.max (depth (Node la lk lv lm lh ll lr)) (depth (Node a0 k0 v0 m0 0 nullptr nullptr)))
                (Node la lk lv lm lh ll lr) nullptr Hl I Bl I)
      as (t1 & E' & _ & He' & Hb' & Hd1 & Hd2); [simpl in *; lia|].
    rewrite E' in E1. inv E1.
    repeat split; try assumption; try (simpl in *; lia).
    rewrite (Delete_unwind_entries _ _ E').
    cbn [entries app] in *.
    rewrite remove_lo_app, remove_lo_cons_eq by reflexivity.
    rewrite Rl, Rr. reflexivity.
Qed.

End DeleteFacts.

(** *** The stabbing query *)

Section FindFacts.

Context {TValue : Type}.
Implicit Types p l r node t : NodePtr TValue.

(** [Find(lo, hi, node)] reaches a [return] in two situations only: the
    subtree is empty, or its root overlaps the query. *)
Lemma Find_node_Ok lo' hi' t r :
  Find_node lo' hi' t = Ok r <->
  r = t /\ (t = nullptr \/ root_overlaps lo' hi' t = true).
Proof.
  destruct t as [|a k v m h l rr]; simpl.
  - split.
    + intros H; inv H. auto.
    + intros (-> & _). reflexivity.
  - destruct (overlaps lo' hi' k) eqn:Ho.
    + split.
      * intros H; inv H. auto.
      * intros (-> & _). reflexivity.
    + split.
      * destruct (is_null l || (GetMax l <? lo')); intros H;
          apply bind_Ok in H as (x & _ & H); discriminate.
      * intros (_ & [H|H]); discriminate.
Qed.

Lemma Find_node_fault lo' hi' t f :
  Find_node lo' hi' t = Undefined f -> f = MissingReturn.
Proof.
  revert f. induction t as [|a k v m h l IHl r IHr]; intros f; simpl.
  - discriminate.
  - destruct (overlaps lo' hi' k); [discriminate|].
    destruct (is_null l || (GetMax l <? lo')).
    + destruct (Find_node lo' hi' r) as [x|g]; simpl; intros H; inv H; auto.
    + destruct (Find_node lo' hi' l) as [x|g]; simpl; intros H; inv H; auto.
Qed.

(** Everywhere else control flows off the end of the function. *)
Lemma Find_node_falls_off lo' hi' t :
  t <> nullptr -> root_overlaps lo' hi' t = false ->
  Find_node lo' hi' t = Undefined MissingReturn.
Proof.
  intros Hn Ho. destruct (Find_node lo' hi' t) as [r|f] eqn:E.
  - apply Find_node_Ok in E as (_ & [E|E]); congruence.
  - now rewrite (Find_node_fault _ _ _ _ E).
Qed.

(** Where the code returns, it returns the end of the search path. *)
Lemma Find_node_path lo' hi' t r :
  Find_node lo' hi' t = Ok r -> r = find_path lo' hi' t.
Proof.
  intros H. apply Find_node_Ok in H as (-> & [->|H]); [reflexivity|].
  destruct t; simpl in *; [discriminate|]. now rewrite H.
Qed.

(** The search path ends at an empty subtree or at a stored node that
    overlaps the query. *)
Lemma find_path_sound lo' hi' t :
  find_path lo' hi' t = nullptr \/
  (root_overlaps lo' hi' (find_path lo' hi' t) = true /\
   exists e, entry_of (find_path lo' hi' t) = Some e /\ In e (entries t)).
Proof.
  induction t as [|a k v m h l IHl r IHr]; simpl; [now left|].
  destruct (overlaps lo' hi' k) eqn:Ho.
  - right. simpl. split; [assumption|]. exists (k, v). split; [reflexivity|].
    apply in_or_app. right. now left.
  - destruct (is_null l || (GetMax l <? lo')).
    + destruct IHr as [E|(E & e & E1 & E2)]; [now left|right].
      split; [assumption|]. exists e. split; [assumption|].
      apply in_or_app. right. now right.
    + destruct IHl as [E|(E & e & E1 & E2)]; [now left|right].
      split; [assumption|]. exists e. split; [assumption|].
      apply in_or_app. now left.
Qed.

End FindFacts.

(** *** The rebalancing step against its table *)

Section BalanceTable.

Context {TValue : Type}.
Implicit Types p l r node t : NodePtr TValue.

Lemma CalcMax_idem p : CalcMax (CalcMax p) = CalcMax p.
Proof. destruct p; reflexivity. Qed.

Lemma refresh_height_idem p : refresh_height (refresh_height p) = refresh_height p.
Proof. destruct p; reflexivity. Qed.

Lemma GetMax_refresh_height p : GetMax (refresh_height p) = GetMax p.
Proof. destruct p; reflexivity. Qed.

Lemma skeleton_refresh_height p : skeleton (refresh_height p) = skeleton p.
Proof. destruct p; reflexivity. Qed.

Lemma skeleton_CalcMax p : skeleton (CalcMax p) = skeleton p.
Proof. destruct p; reflexivity. Qed.

Lemma store_height_fresh p t : store_height p = Ok t -> height_fresh t.
Proof.
  destruct p; simpl; [discriminate|]. intros H; inv H. reflexivity.
Qed.

(** A rotation is the textbook one; it recomputes the [max] of the node that
    goes down and then of the node that comes up, and leaves every [height]
    counter as it was. *)
Lemma RightRotation_shape p t :
  RightRotation p = Ok t ->
  skeleton t = rotate_right (skeleton p) /\
  max_fresh t /\ max_fresh (right_of t) /\
  GetHeight t = GetHeight (left_of p) /\ GetHeight (right_of t) = GetHeight p.
Proof.
  destruct p as [|a k v m h [|la lk lv lm lh ll lr] r]; simpl; try discriminate.
  intros H; inv H. unfold max_fresh. simpl. repeat split.
Qed.

Lemma LeftRotation_shape p t :
  LeftRotation p = Ok t ->
  skeleton t = rotate_left (skeleton p) /\
  max_fresh t /\ max_fresh (left_of t) /\
  GetHeight t = GetHeight (right_of p) /\ GetHeight (left_of t) = GetHeight p.
Proof.
  destruct p as [|a k v m h l [|ra rk rv rm rh rl rr]]; simpl; try discriminate.
  intros H; inv H. unfold max_fresh. simpl. repeat split.
Qed.

Lemma GetHeight_lower p : heights_exact p -> -1 <= GetHeight p.
Proof. intros H. rewrite (GetHeight_exact p H). apply depth_lower. Qed.

Lemma GetHeight_null p : heights_exact p -> GetHeight p = -1 -> p = nullptr.
Proof. intros H. rewrite (GetHeight_exact p H). apply depth_null. Qed.

(** [Balance] at a node whose subtrees carry right counters: it returns, and
    what it returns is the entry of the table. *)
Lemma Balance_rebalance_table a k v m h l r :
  heights_exact l -> heights_exact r ->
  exists t,
    Balance (Node a k v m h l r) = Ok t /\
    skeleton t =
      rebalance_table (GetHeight l - GetHeight r) (balance_factor l)
        (balance_factor r) (skeleton (Node a k v m h l r)) /\
    (-1 <= GetHeight l - GetHeight r <= 1 -> t = Node a k v m h l r) /\
    (GetHeight l - GetHeight r < -1 \/ 1 < GetHeight l - GetHeight r ->
       max_fresh t /\ height_fresh (left_of t) /\ height_fresh (right_of t)) /\
    (GetHeight l - GetHeight r < -1 -> max_fresh (left_of t)) /\
    (1 < GetHeight l - GetHeight r -> max_fresh (right_of t)) /\
    (GetHeight l - GetHeight r < -1 -> 1 <= balance_factor r ->
       max_fresh (right_of t)) /\
    (1 < GetHeight l - GetHeight r -> balance_factor l <= -1 ->
       max_fresh (left_of t)).
Proof.
  intros Hl Hr.
  pose proof (GetHeight_lower l Hl) as Ll. pose proof (GetHeight_lower r Hr) as Lr.
  unfold Balance, GetBalance, bind, rebalance_table.
  destruct (Z.ltb_spec (GetHeight l - GetHeight r) (-1)) as [Hlt|Hge].
  - destruct r as [|ra rk rv rm rh rl rr]; [simpl in *; lia|].
    simpl in Hr. destruct Hr as (Hrh & Hrl & Hrr).
    pose proof (GetHeight_lower rl Hrl). pose proof (GetHeight_lower rr Hrr).
    unfold balance_factor. cbn [left_of right_of].
    rewrite Z.geb_leb.
    destruct (Z.leb_spec 1 (GetHeight rl - GetHeight rr)) as [Hsub|Hsub].
    + destruct rl as [|rla rlk rlv rlm rlh rll rlr]; [simpl in *; lia|].
      eexists. split; [reflexivity|].
      unfold max_fresh, height_fresh. simpl in *.
      repeat split; intros; try reflexivity; try lia.
    + eexists. split; [reflexivity|].
      unfold max_fresh, height_fresh. simpl in *.
      rewrite skeleton_refresh_height, refresh_height_idem.
      repeat split; intros; try reflexivity; try lia.
      destruct rr; reflexivity.
  - rewrite Z.gtb_ltb.
    destruct (Z.ltb_spec 1 (GetHeight l - GetHeight r)) as [Hgt|Hle].
    + destruct l as [|la lk lv lm lh ll lr]; [simpl in *; lia|].
      simpl in Hl. destruct Hl as (Hlh & Hll & Hlr).
      pose proof (GetHeight_lower ll Hll). pose proof (GetHeight_lower lr Hlr).
      unfold balance_factor. cbn [left_of right_of].
      destruct (Z.leb_spec (GetHeight ll - GetHeight lr) (-1)) as [Hsub|Hsub].
      * destruct lr as [|lra lrk lrv lrm lrh lrl lrr]; [simpl in *; lia|].
        eexists. split; [reflexivity|].
        unfold max_fresh, height_fresh. simpl in *.
        repeat split; intros; try reflexivity; try lia.
      * eexists. split; [reflexivity|].
        unfold max_fresh, height_fresh. simpl in *.
        rewrite skeleton_refresh_height, refresh_height_idem.
        repeat split; intros; try reflexivity; try lia.
        destruct ll; reflexivity.
    + eexists. split; [reflexivity|].
      repeat split; intros; try reflexivity; try lia.
Qed.

(** Whatever the counters, a call of [Balance] that returns has followed
    the table. *)
Lemma Balance_Ok_table a k v m h l r t :
  Balance (Node a k v m h l r) = Ok t ->
  skeleton t =
    rebalance_table (GetHeight l - GetHeight r) (balance_factor l)
      (balance_factor r) (skeleton (Node a k v m h l r)) /\
  (-1 <= GetHeight l - GetHeight r <= 1 -> t = Node a k v m h l r) /\
  (GetHeight l - GetHeight r < -1 \/ 1 < GetHeight l - GetHeight r ->
     max_fresh t /\ height_fresh (left_of t) /\ height_fresh (right_of t)) /\
  (GetHeight l - GetHeight r < -1 -> max_fresh (left_of t)) /\
  (1 < GetHeight l - GetHeight r -> max_fresh (right_of t)) /\
  (GetHeight l - GetHeight r < -1 -> 1 <= balance_factor r ->
     max_fresh (right_of t)) /\
  (1 < GetHeight l - GetHeight r -> balance_factor l <= -1 ->
     max_fresh (left_of t)).
Proof.
  unfold Balance, GetBalance, bind, rebalance_table, balance_factor.
  destruct (Z.ltb_spec (GetHeight l - GetHeight r) (-1)) as [Hlt|Hge].
  - destruct r as [|ra rk rv rm rh rl rr]; [discriminate|].
    cbn [left_of right_of]. rewrite Z.geb_leb.
    destruct (Z.leb_spec 1 (GetHeight rl - GetHeight rr)) as [Hsub|Hsub].
    + destruct rl as [|rla rlk rlv rlm rlh rll rlr]; [discriminate|].
      intros H; inv H. unfold max_fresh, height_fresh. simpl in *.
      repeat split; intros; try reflexivity; try lia.
    + intros H; inv H. unfold max_fresh, height_fresh. simpl in *.
      rewrite skeleton_refresh_height, refresh_height_idem.
      repeat split; intros; try reflexivity; try lia.
      destruct rr; reflexivity.
  - rewrite Z.gtb_ltb.
    destruct (Z.ltb_spec 1 (GetHeight l - GetHeight r)) as [Hgt|Hle].
    + destruct l as [|la lk lv lm lh ll lr]; [discriminate|].
      cbn [left_of right_of].
      destruct (Z.leb_spec (GetHeight ll - GetHeight lr) (-1)) as [Hsub|Hsub].
      * destruct lr as [|lra lrk lrv lrm lrh lrl lrr]; [discriminate|].
        intros H; inv H. unfold max_fresh, height_fresh. simpl in *.
        repeat split; intros; try reflexivity; try lia.
      * intros H; inv H. unfold max_fresh, height_fresh. simpl in *.
        rewrite skeleton_refresh_height, refresh_height_idem.
        repeat split; intros; try reflexivity; try lia.
        destruct ll; reflexivity.
    + intros H; inv H. repeat split; intros; try reflexivity; try lia.
Qed.

(** At a node whose subtrees carry right counters [Balance] returns. *)
Lemma Balance_defined a k v m h l r :
  heights_exact l -> heights_exact r -> defined (Balance (Node a k v m h l r)).
Proof.
  intros Hl Hr.
  destruct (Balance_rebalance_table a k v m h l r Hl Hr) as (t & E & _).
  now exists t.
Qed.

End BalanceTable.

(** *** When deletion returns *)

Section DeleteDefined.

Context {TValue : Type}.
Implicit Types p l r node t : NodePtr TValue.

Lemma Delete_unwind_id a k v m h l r :
  heights_exact (Node a k v m h l r) -> balanced (Node a k v m h l r) ->
  Delete_unwind (Node a k v m h l r) = Ok (Node a k v m h l r).
Proof.
  intros He Hb. pose proof He as (Hh & Hl & Hr). destruct Hb as (Hd & _ & _).
  unfold Delete_unwind, Balance, GetBalance, bind.
  rewrite (GetHeight_exact l Hl), (GetHeight_exact r Hr).
  destruct (Z.ltb_spec (depth l - depth r) (-1)); [lia|].
  rewrite Z.gtb_ltb. destruct (Z.ltb_spec 1 (depth l - depth r)); [lia|].
  simpl. rewrite CalcHeight_Node.
  rewrite (GetHeight_exact l Hl), (GetHeight_exact r Hr). now rewrite <- Hh.
Qed.

(** [Delete(key, node)] on a balanced search tree with right counters
    returns exactly when the node it is to remove is [deletable]. *)
Lemma Delete_node_defined_iff key t :
  shape_ok t ->
  (defined (Delete_node key t) <-> deletable (lookup_lo key t) = true).
Proof.
  induction t as [|a k v m h l IHl r IHr]; intros (Hs & Hb & He).
  - simpl. split; [reflexivity|]. intros _. eexists. reflexivity.
  - pose proof Hs as (Fl & Fr & Sl & Sr).
    pose proof Hb as (Hd & Bl & Br).
    pose proof He as (Hh & Hl & Hr).
    assert (Sol : shape_ok l) by (repeat split; assumption).
    assert (Sor : shape_ok r) by (repeat split; assumption).
    cbn [Delete_node lookup_lo].
    destruct (Z.ltb_spec (lo k) key) as [Hlt|Hge].
    { rewrite <- (IHr Sor). split.
      - intros ([t' rel] & H). apply bind_Ok in H as (x & E & _).
        eexists; eassumption.
      - intros ([r1 rel] & E). rewrite E. cbn [bind].
        destruct (Delete_node_spec key r Hr Br Sr _ _ E) as (Hr1 & Br1 & Dr1 & _).
        destruct (Delete_unwind_heights a k v m h l r1 Hl Hr1 Bl Br1)
          as (t1 & E' & _); [lia|].
        rewrite E'. eexists. reflexivity. }
    destruct (Z.ltb_spec key (lo k)) as [Hlt|Hge'].
    { rewrite <- (IHl Sol). split.
      - intros ([t' rel] & H). apply bind_Ok in H as (x & E & _).
        eexists; eassumption.
      - intros ([l1 rel] & E). rewrite E. cbn [bind].
        destruct (Delete_node_spec key l Hl Bl Sl _ _ E) as (Hl1 & Bl1 & Dl1 & _).
        destruct (Delete_unwind_heights a k v m h l1 r Hl1 Hr Bl1 Br)
          as (t1 & E' & _); [lia|].
        rewrite E'. eexists. reflexivity. }
    pose proof (depth_lower l) as Dl. pose proof (depth_lower r) as Dr.
    destruct (Z.eqb_spec h 0) as [Hz|Hnz].
    { assert (l = nullptr) by (apply depth_null; lia). subst l.
      split; [reflexivity|]. intros _. eexists. reflexivity. }
    destruct r as [|ra rk rv rm rh rl rr].
    { destruct l as [|la lk lv lm lh ll lr]; [simpl in *; lia|].
      cbn [is_null deletable orb].
      split; [reflexivity|]. intros _.
      rewrite (Delete_unwind_id _ _ _ _ _ _ _ Hl Bl). eexists. reflexivity. }
    destruct l as [|la lk lv lm lh ll lr].
    { cbn [is_null deletable orb].
      split; [reflexivity|]. intros _.
      rewrite (Delete_unwind_id _ _ _ _ _ _ _ Hr Br). eexists. reflexivity. }
    cbn [is_null deletable orb is_leaf FindMinimum].
    destruct rl as [|rla rlk rlv rlm rlh rll rlr].
    + cbn [is_null bind lo Delete_node]. rewrite Z.ltb_irrefl.
      destruct rr as [|rra rrk rrv rrm rrh rrl rrr].
      * assert (rh = 0) by (simpl in Hr; lia). subst rh.
        split; [reflexivity|]. intros _.
        rewrite Z.eqb_refl. cbn [bind get release_alias].
        destruct (Delete_unwind_heights a rk rv m h
                    (Node la lk lv lm lh ll lr) nullptr Hl I Bl I)
          as (t1 & E' & _); [simpl in *; lia|].
        rewrite E'. eexists. reflexivity.
      * split; [|discriminate]. intros ([t' rel] & H). exfalso.
        apply bind_Ok in H as ([r1 rel1] & _ & H). cbn [get release_alias] in H.
        destruct (existsb (Nat.eqb rra) (addrs r1)); discriminate.
    + split; [|discriminate]. intros ([t' rel] & H). exfalso.
      cbn [is_null] in H. apply bind_Ok in H as (x & H & _).
      apply bind_Ok in H as (y & _ & H). discriminate.
Qed.

(** A key that is not stored: [Delete] returns, destroys nothing and leaves
    the tree as it was. *)
Lemma Delete_node_absent key t :
  shape_ok t -> lookup_lo key t = nullptr -> Delete_node key t = Ok (t, []).
Proof.
  induction t as [|a k v m h l IHl r IHr]; intros (Hs & Hb & He) Hk.
  - reflexivity.
  - pose proof Hs as (Fl & Fr & Sl & Sr).
    pose proof Hb as (Hd & Bl & Br).
    pose proof He as (Hh & Hl & Hr).
    cbn [Delete_node lookup_lo] in *.
    destruct (lo k <? key).
    + rewrite IHr by (repeat split; assumption). cbn [bind].
      now rewrite (Delete_unwind_id _ _ _ _ _ _ _ He Hb).
    + destruct (key <? lo k); [|discriminate].
      rewrite IHl by (repeat split; assumption). cbn [bind].
      now rewrite (Delete_unwind_id _ _ _ _ _ _ _ He Hb).
Qed.

End DeleteDefined.

(** *** Ownership *)

Section Ownership.

Context {TValue : Type}.
Implicit Types p l r node t : NodePtr TValue.

Lemma addrs_CalcMax p : addrs (CalcMax p) = addrs p.
Proof. destruct p; reflexivity. Qed.

Lemma addrs_refresh_height p : addrs (refresh_height p) = addrs p.
Proof. destruct p; reflexivity. Qed.

Lemma RightRotation_addrs p t : RightRotation p = Ok t -> addrs t = addrs p.
Proof.
  destruct p as [|a k v m h [|la lk lv lm lh ll lr] r]; simpl; try discriminate.
  intros H; inv H; simpl. now rewrite <- app_assoc.
Qed.

Lemma LeftRotation_addrs p t : LeftRotation p = Ok t -> addrs t = addrs p.
Proof.
  destruct p as [|a k v m h l [|ra rk rv rm rh rl rr]]; simpl; try discriminate.
  intros H; inv H; simpl. now rewrite <- app_assoc.
Qed.

Lemma store_heights_addrs p t : store_heights p = Ok t -> addrs t = addrs p.
Proof.
  destruct p; simpl; try discriminate. intros H; inv H; simpl.
  now rewrite !addrs_refresh_height.
Qed.

Lemma store_height_addrs p t : store_height p = Ok t -> addrs t = addrs p.
Proof. destruct p; simpl; try discriminate. now intros H; inv H. Qed.

(** No rotation destroys or duplicates an object. *)
Lemma Balance_addrs p t : Balance p = Ok t -> addrs t = addrs p.
Proof.
  unfold Balance. intros H.
  apply bind_Ok in H as (b & Hb & H).
  destruct p as [|a k v m h l r]; [discriminate|].
  destruct (b <? -1).
  - apply bind_Ok in H as (sb & _ & H).
    apply bind_Ok in H as (n1 & Hn1 & H).
    apply bind_Ok in H as (n2 & Hn2 & H).
    rewrite (store_heights_addrs _ _ H), (LeftRotation_addrs _ _ Hn2).
    destruct (sb >=? 1).
    + apply bind_Ok in Hn1 as (r1 & Hr1 & Hn1). inv Hn1. simpl.
      now rewrite (RightRotation_addrs _ _ Hr1).
    + now inv Hn1.
  - destruct (b >? 1).
    + apply bind_Ok in H as (sb & _ & H).
      apply bind_Ok in H as (n1 & Hn1 & H).
      apply bind_Ok in H as (n2 & Hn2 & H).
      rewrite (store_heights_addrs _ _ H), (RightRotation_addrs _ _ Hn2).
      destruct (sb <=? -1).
      * apply bind_Ok in Hn1 as (l1 & Hl1 & Hn1). inv Hn1. simpl.
        now rewrite (LeftRotation_addrs _ _ Hl1).
      * now inv Hn1.
    + now inv H.
Qed.

Lemma Insert_unwind_addrs p t : Insert_unwind p = Ok t -> addrs t = addrs p.
Proof.
  unfold Insert_unwind. intros H.
  apply bind_Ok in H as (t1 & H1 & H).
  apply bind_Ok in H as (t2 & H2 & H). inv H.
  now rewrite addrs_CalcMax, (store_height_addrs _ _ H2), (Balance_addrs _ _ H1).
Qed.

Lemma Delete_unwind_addrs p t : Delete_unwind p = Ok t -> addrs t = addrs p.
Proof.
  unfold Delete_unwind. intros H.
  apply bind_Ok in H as (t1 & H1 & H).
  now rewrite (store_height_addrs _ _ H), (Balance_addrs _ _ H1).
Qed.

(** [Insert(key, value, node)] keeps every object and adds at most the one
    it allocates. *)
Lemma Insert_node_addrs fresh key value t t' :
  Insert_node fresh key value t = Ok t' ->
  addrs t' = addrs t \/ Permutation (fresh :: addrs t) (addrs t').
Proof.
  revert t'. induction t as [|a k v m h l IHl r IHr]; intros t' H.
  - inv H. right. simpl. apply Permutation_refl.
  - simpl in H. destruct (lo key <? lo k); [|destruct (lo key >? lo k)].
    + apply bind_Ok in H as (l1 & E & H).
      rewrite (Insert_unwind_addrs _ _ H). simpl.
      destruct (IHl _ E) as [->|P]; [now left|right].
      change (fresh :: addrs l ++ a :: addrs r)
        with ((fresh :: addrs l) ++ a :: addrs r).
      now apply Permutation_app_tail.
    + apply bind_Ok in H as (r1 & E & H).
      rewrite (Insert_unwind_addrs _ _ H). simpl.
      destruct (IHr _ E) as [->|P]; [now left|right].
      eapply perm_trans; [apply Permutation_middle|].
      apply Permutation_app_head.
      eapply perm_trans; [apply perm_swap|]. now apply perm_skip.
    + inv H. now left.
Qed.

(** Where [Delete(key, node)] returns, every object of the subtree is either
    still in it or destroyed, never both. *)
Lemma Delete_node_addrs key t t' rel :
  Delete_node key t = Ok (t', rel) -> Permutation (addrs t' ++ rel) (addrs t).
Proof.
  revert t' rel. induction t as [|a k v m h l IHl r IHr]; intros t' rel H.
  - inv H. apply Permutation_refl.
  - simpl in H.
    destruct (lo k <? key).
    { apply bind_Ok in H as ([r1 rel1] & E & H).
      apply bind_Ok in H as (n1 & E1 & H). inv H.
      rewrite (Delete_unwind_addrs _ _ E1). simpl.
      rewrite <- app_assoc. simpl.
      apply Permutation_app_head, perm_skip. now apply IHr. }
    destruct (key <? lo k).
    { apply bind_Ok in H as ([l1 rel1] & E & H).
      apply bind_Ok in H as (n1 & E1 & H). inv H.
      rewrite (Delete_unwind_addrs _ _ E1). simpl.
      rewrite <- app_assoc.
      eapply perm_trans; [apply Permutation_app_head, Permutation_app_comm|].
      rewrite app_assoc. apply Permutation_app_tail. now apply IHl. }
    destruct (h =? 0).
    { inv H. simpl. apply Permutation_refl. }
    destruct r as [|ra rk rv rm rh rl rr].
    { simpl in H. apply bind_Ok in H as (n1 & E1 & H). inv H.
      rewrite (Delete_unwind_addrs _ _ E1). simpl. apply Permutation_refl. }
    destruct l as [|la lk lv lm lh ll lr].
    { cbn [is_null] in H. apply bind_Ok in H as (n1 & E1 & H). inv H.
      rewrite (Delete_unwind_addrs _ _ E1).
      change (addrs (Node a k v m h nullptr (Node ra rk rv rm rh rl rr)))
        with (a :: addrs (Node ra rk rv rm rh rl rr)).
      apply Permutation_sym, Permutation_cons_append. }
    cbn [is_null] in H.
    apply bind_Ok in H as (mn & Emin & H).
    apply FindMinimum_Ok in Emin as (-> & (a0 & k0 & v0 & m0 & h0 & r0 & Eq)).
    inv Eq.
    apply bind_Ok in H as ([r1 rel1] & E & H).
    apply bind_Ok in H as ([] & Ea1 & H).
    apply bind_Ok in H as ([] & Ea2 & H).
    apply bind_Ok in H as (n1 & E1 & H). inv H.
    apply release_alias_Ok, get_None in Ea1. subst r0.
    rewrite (Delete_unwind_addrs _ _ E1).
    simpl in E. rewrite Z.ltb_irrefl in E.
    destruct (h0 =? 0).
    + inv E. simpl. rewrite <- app_assoc. reflexivity.
    + simpl in E. discriminate.
Qed.

End Ownership.

(** *** Whole operations and sequences of them *)

Section RunFacts.

Context {TValue : Type}.
Implicit Types p l r node t : NodePtr TValue.
Implicit Types m : IntervalAVLMap TValue.
Implicit Types es : list (Key * TValue).

Lemma remove_lo_sorted key es : sorted es -> sorted (remove_lo key es).
Proof.
  unfold sorted, remove_lo. induction 1 as [|e es S IH F]; simpl.
  - constructor.
  - destruct (negb (lo_of e =? key)); [|assumption].
    constructor; [assumption|].
    rewrite Forall_forall in *. intros x Hx.
    apply filter_In in Hx as (Hx & _). now apply F.
Qed.

Lemma Delete_node_shape_ok key t t' rel :
  shape_ok t -> Delete_node key t = Ok (t', rel) ->
  shape_ok t' /\ entries t' = remove_lo key (entries t).
Proof.
  intros (Hs & Hb & He) H.
  destruct (Delete_node_spec key t He Hb Hs _ _ H) as (He' & Hb' & _ & En).
  split; [|assumption]. repeat split; try assumption.
  apply bst_sorted. rewrite En. apply remove_lo_sorted. now apply bst_sorted.
Qed.

Lemma Insert_node_shape_ok fresh key value t :
  shape_ok t ->
  exists t',
    Insert_node fresh key value t = Ok t' /\ t' <> nullptr /\ shape_ok t' /\
    entries t' = upsert key value (entries t).
Proof.
  intros (Hs & Hb & He).
  destruct (Insert_node_heights fresh key value t He Hb)
    as (t' & E & Hn & He' & Hb' & _).
  exists t'. repeat split; try assumption.
  - eapply Insert_node_bst; eassumption.
  - eapply Insert_node_entries; eassumption.
Qed.

Lemma apply_op_shape_ok m o m' :
  shape_ok (m_pRoot m) -> apply_op m o = Ok m' -> shape_ok (m_pRoot m').
Proof.
  intros Hs H. destruct o as [lo' hi' value|key]; simpl in H.
  - unfold Insert in H. destruct (hi' <? lo').
    + simpl in H. now inv H.
    + destruct (Insert_node_shape_ok (next_addr m) (mkKey lo' hi') value _ Hs)
        as (t' & E & _ & Hs' & _).
      rewrite E in H. simpl in H. now inv H.
  - unfold Delete in H. apply bind_Ok in H as ([root rel] & E & H). inv H. simpl.
    eapply Delete_node_shape_ok; eassumption.
Qed.

Lemma apply_op_ownership_ok m o m' :
  ownership_ok m -> apply_op m o = Ok m' -> ownership_ok m'.
Proof.
  intros (Hn & Hf) H. destruct o as [lo' hi' value|key]; simpl in H.
  - unfold Insert in H. destruct (hi' <? lo').
    + simpl in H. inv H. now split.
    + apply bind_Ok in H as ([root m1] & H & E). injection E as ->.
      apply bind_Ok in H as (t' & E & H). injection H as <- <-.
      unfold ownership_ok. simpl.
      destruct (Insert_node_addrs _ _ _ _ _ E) as [->|P].
      * split; [assumption|].
        eapply Forall_impl; [|exact Hf]. simpl; intros; lia.
      * assert (P' : Permutation (next_addr m :: addrs (m_pRoot m) ++ released m)
                       (addrs t' ++ released m)).
        { change (next_addr m :: addrs (m_pRoot m) ++ released m)
            with ((next_addr m :: addrs (m_pRoot m)) ++ released m).
          now apply Permutation_app_tail. }
        split.
        -- eapply Permutation_NoDup; [exact P'|].
           constructor; [|assumption].
           intros Hin. rewrite Forall_forall in Hf. apply Hf in Hin. lia.
        -- eapply Permutation_Forall; [exact P'|].
           constructor; [lia|].
           eapply Forall_impl; [|exact Hf]. simpl; intros; lia.
  - unfold Delete in H. apply bind_Ok in H as ([root rel] & E & H). inv H.
    unfold ownership_ok. simpl.
    assert (P : Permutation (addrs (m_pRoot m) ++ released m)
                  (addrs root ++ released m ++ rel)).
    { apply Permutation_sym.
      eapply perm_trans; [apply Permutation_app_head, Permutation_app_comm|].
      rewrite app_assoc. apply Permutation_app_tail.
      eapply Delete_node_addrs; eassumption. }
    split.
    + eapply Permutation_NoDup; eassumption.
    + eapply Permutation_Forall; eassumption.
Qed.

(** Every sequence of operations that runs to its end leaves a balanced
    search tree with right counters, each object owned once and no destroyed
    object in the tree. *)
Lemma run_shape_ok (ops : list (Op TValue)) m m' :
  shape_ok (m_pRoot m) -> ownership_ok m -> run ops m = Ok m' ->
  shape_ok (m_pRoot m') /\ ownership_ok m'.
Proof.
  revert m. induction ops as [|o ops IH]; intros m Hs Ho H; simpl in H.
  - inv H. now split.
  - apply bind_Ok in H as (m1 & E & H).
    eapply IH; [| |exact H].
    + eapply apply_op_shape_ok; eassumption.
    + eapply apply_op_ownership_ok; eassumption.
Qed.

Lemma empty_map_shape_ok : shape_ok (m_pRoot (@empty_map TValue)).
Proof. repeat split. Qed.

Lemma empty_map_ownership_ok : ownership_ok (@empty_map TValue).
Proof. split; constructor. Qed.

(** From the empty map. *)
Lemma run_from_empty (ops : list (Op TValue)) m :
  run ops empty_map = Ok m -> shape_ok (m_pRoot m) /\ ownership_ok m.
Proof.
  apply run_shape_ok; [apply empty_map_shape_ok | apply empty_map_ownership_ok].
Qed.

(** Sequences of insertions always run to their end, and keep all four
    invariants. *)
Lemma run_inserts (ops : list (Op TValue)) m :
  Forall insertion_above_sentinel ops -> valid (m_pRoot m) ->
  exists m', run ops m = Ok m' /\ valid (m_pRoot m').
Proof.
  intros F. revert m. induction F as [|o ops Ho F IH]; intros m Hv; simpl.
  - eauto.
  - destruct o as [lo' hi' value|key]; [|contradiction]. simpl in Ho.
    simpl. unfold Insert. destruct (hi' <? lo').
    + simpl. now apply IH.
    + destruct (Insert_node_valid (next_addr m) (mkKey lo' hi') value _ Ho Hv)
        as (t' & E & _ & Hv' & _).
      rewrite E. simpl. now apply IH.
Qed.

End RunFacts.

(** * The claims *)

Section PublicInsert.

Context {TValue : Type}.
Implicit Types p l r node t : NodePtr TValue.
Implicit Types m : IntervalAVLMap TValue.

Lemma Insert_unwind_nonnull p t : Insert_unwind p = Ok t -> t <> nullptr.
Proof.
  unfold Insert_unwind. intros H.
  apply bind_Ok in H as (t1 & _ & H).
  apply bind_Ok in H as (t2 & H2 & H). inv H.
  apply CalcMax_nonnull. eapply store_height_nonnull; eassumption.
Qed.

Lemma Insert_node_nonnull fresh key value t t' :
  Insert_node fresh key value t = Ok t' -> t' <> nullptr.
Proof.
  destruct t as [|a k v m h l r]; simpl.
  - intros H; inv H. discriminate.
  - destruct (lo key <? lo k); [|destruct (lo key >? lo k)]; intros H.
    + apply bind_Ok in H as (l1 & _ & H). eapply Insert_unwind_nonnull; eassumption.
    + apply bind_Ok in H as (r1 & _ & H). eapply Insert_unwind_nonnull; eassumption.
    + inv H. discriminate.
Qed.

Lemma Insert_Ok lo' hi' value m p m' :
  Insert lo' hi' value m = Ok (p, m') ->
  (hi' < lo' /\ p = nullptr /\ m' = m) \/
  (lo' <= hi' /\ p = m_pRoot m' /\ p <> nullptr /\
   Insert_node (next_addr m) (mkKey lo' hi') value (m_pRoot m) = Ok p).
Proof.
  unfold Insert. destruct (Z.ltb_spec hi' lo') as [Hlt|Hge]; intros H.
  - inv H. left. auto.
  - apply bind_Ok in H as (root & E & H). inv H. right. simpl.
    repeat split; try assumption. eapply Insert_node_nonnull; eassumption.
Qed.

(** C7.  An insertion with [hi < lo] returns the null pointer and leaves the
    map as it was, tree and invariants included; the null pointer is
    returned in this case only, and on a map whose tree is a balanced
    search tree with right counters every other insertion returns a node. *)
Theorem Insert_rejects_inverted_interval lo' hi' value m :
  (hi' < lo' -> Insert lo' hi' value m = Ok (nullptr, m)) /\
  (forall p m', Insert lo' hi' value m = Ok (p, m') -> p = nullptr -> hi' < lo') /\
  (lo' <= hi' -> shape_ok (m_pRoot m) ->
     exists p m', Insert lo' hi' value m = Ok (p, m') /\ p <> nullptr).
Proof.
  repeat split.
  - intros Hlt. unfold Insert.
    destruct (Z.ltb_spec hi' lo'); [reflexivity | lia].
  - intros p m' H Hp.
    apply Insert_Ok in H as [(Hlt & _)|(_ & _ & Hn & _)]; [assumption | contradiction].
  - intros Hle Hs. unfold Insert.
    destruct (Z.ltb_spec hi' lo'); [lia|].
    destruct (Insert_node_shape_ok (next_addr m) (mkKey lo' hi') value _ Hs)
      as (t' & E & Hn & _).
    rewrite E. simpl. eauto.
Qed.

End PublicInsert.

Lemma Insert_rejects_inverted_interval_witness :
  Insert 10 5 "X"%string empty_map = Ok (nullptr, empty_map) /\
  5 < 10 /\
  (exists p m', Insert 5 10 "X"%string empty_map = Ok (p, m') /\ p <> nullptr).
Proof.
  pose proof (Insert_rejects_inverted_interval 10 5 "X"%string empty_map)
    as (Hrej & Honly & _).
  pose proof (Insert_rejects_inverted_interval 5 10 "X"%string empty_map)
    as (_ & _ & Hacc).
  split; [apply Hrej; lia|]. split.
  - apply (Honly nullptr empty_map); reflexivity.
  - apply Hacc; [lia | repeat split].
Defined.

Section ReturnedPointer.

Context {TValue : Type}.
Implicit Types p l r node t : NodePtr TValue.
Implicit Types m : IntervalAVLMap TValue.

(** C10.  The public [Insert] returns the null pointer exactly when
    [hi < lo]; otherwise what it returns is a non-null pointer to the root
    of the tree after the insertion (it returns one whenever the tree is a
    balanced search tree with right counters), and the root need not be the
    node that holds the inserted [lo]. *)
Theorem Insert_returns_root lo' hi' value m :
  (forall p m', Insert lo' hi' value m = Ok (p, m') ->
     (p = nullptr <-> hi' < lo') /\
     (lo' <= hi' -> p <> nullptr /\ p = m_pRoot m' /\ get p = get (m_pRoot m'))) /\
  (shape_ok (m_pRoot m) -> exists p m', Insert lo' hi' value m = Ok (p, m')) /\
  (exists m0 p m' k v,
     shape_ok (m_pRoot m0) /\ Insert 1 2 value m0 = Ok (p, m') /\
     entry_of p = Some (k, v) /\ lo k <> 1 /\
     exists k1, In (k1, value) (entries (m_pRoot m')) /\ lo k1 = 1).
Proof.
  split; [|split].
  - intros p m' H.
    apply Insert_Ok in H as [(Hlt & -> & ->)|(Hle & E & Hn & _)].
    + split; [tauto | lia].
    + split; [split; [contradiction | lia]|].
      intros _. rewrite <- E. auto.
  - intros Hs. unfold Insert. destruct (hi' <? lo'); [eauto|].
    destruct (Insert_node_shape_ok (next_addr m) (mkKey lo' hi') value _ Hs)
      as (t' & E & _).
    rewrite E. simpl. eauto.
  - exists {| m_pRoot := Node 0%nat (mkKey 2 3) value 3 0 nullptr nullptr;
              next_addr := 1%nat; released := [] |}.
    do 4 eexists. split; [|split; [reflexivity|]].
    + vm_compute. repeat split; try constructor; discriminate.
    + simpl. split; [reflexivity|]. split; [simpl; lia|].
      exists (mkKey 1 2). split; [now left | reflexivity].
Qed.

End ReturnedPointer.

Lemma Insert_returns_root_witness :
  exists p m',
    Insert 1 2 "b"%string
      {| m_pRoot := Node 0%nat (mkKey 2 3) "a"%string 3 0 nullptr nullptr;
         next_addr := 1%nat; released := [] |} = Ok (p, m') /\
    p = m_pRoot m' /\
    entry_of p = Some (mkKey 2 3, "a"%string).
Proof.
  set (m := {| m_pRoot := Node 0%nat (mkKey 2 3) "a"%string 3 0 nullptr nullptr;
               next_addr := 1%nat; released := [] |}).
  destruct (Insert_returns_root 1 2 "b"%string m) as (Hret & Hdef & _).
  destruct Hdef as (p & m' & E).
  { vm_compute. repeat split; try constructor; discriminate. }
  exists p, m'. split; [exact E|].
  destruct (Hret p m' E) as (_ & Hroot).
  destruct Hroot as (_ & Hp & _); [lia|].
  split; [exact Hp|].
  vm_compute in E. injection E as <- _. reflexivity.
Defined.

(** ** Insert, find, delete, find *)

Section RoundTrip.

Context {TValue : Type}.
Implicit Types p l r node t : NodePtr TValue.
Implicit Types m : IntervalAVLMap TValue.
Implicit Types es : list (Key * TValue).

Lemma Find_Find_node lo' hi' m : Find lo' hi' m = Find_node lo' hi' (m_pRoot m).
Proof. unfold Find. destruct (m_pRoot m); reflexivity. Qed.

End RoundTrip.

(** C3.  The round trip stops at [Find].  On the map that holds (30,40,a),
    [Insert(10, 20, v)] returns and leaves a valid tree with (10,20,v) in the
    left child of the root.  The mapping overlaps [10, 20) and the search
    path for (10, 20) ends at its node, but [Find(10, 20)] calls itself on
    the left child (line 98), drops what the call gives and flows off its
    end: no entry is returned.  [Delete(10)] then returns and leaves
    (30,40,a) alone.  For every query that (30,40) does not overlap, (10, 20)
    among them, the search path ends at an empty subtree, but [Find] calls
    itself on the right child (line 94), drops the null pointer and flows
    off its end: not-found is not returned either. *)
Theorem round_trip_lost_by_Find :
  exists m0 p m1 m2,
    run [OpInsert 30 40 "a"%string] empty_map = Ok m0 /\
    Insert 10 20 "v"%string m0 = Ok (p, m1) /\
    valid (m_pRoot m1) /\
    entries (m_pRoot m1) = [(mkKey 10 20, "v"%string); (mkKey 30 40, "a"%string)] /\
    overlaps 10 20 (mkKey 10 20) = true /\
    entry_of (find_path 10 20 (m_pRoot m1)) = Some (mkKey 10 20, "v"%string) /\
    Find 10 20 m1 = Undefined MissingReturn /\
    Delete 10 m1 = Ok m2 /\
    entries (m_pRoot m2) = [(mkKey 30 40, "a"%string)] /\
    overlaps 10 20 (mkKey 30 40) = false /\
    (forall qlo qhi,
       overlaps qlo qhi (mkKey 30 40) = false ->
       find_path qlo qhi (m_pRoot m2) = nullptr /\
       Find qlo qhi m2 = Undefined MissingReturn).
Proof.
  do 4 eexists.
  split; [vm_compute; reflexivity|]. split; [vm_compute; reflexivity|].
  cbn [m_pRoot].
  split; [vm_compute; repeat split; try constructor; try discriminate; auto|].
  split; [reflexivity|]. split; [reflexivity|]. split; [reflexivity|].
  split; [reflexivity|]. split; [vm_compute; reflexivity|]. cbn [m_pRoot].
  split; [reflexivity|]. split; [reflexivity|].
  intros qlo qhi Ho. unfold Find.
  cbn [m_pRoot is_null find_path Find_node orb bind]. rewrite Ho.
  split; reflexivity.
Qed.

(** Two limits of the search that are in the comparisons of [Find], apart
    from the dropped results.  An interval with [hi = lo] overlaps nothing
    under the open-interval test, itself included: after [Insert(5, 5, v)]
    no stored mapping overlaps [5, 5).  And with [lo < hi]: after (10,11),
    (1,20), (20,30) the search path for (20, 30) goes left, because the
    left child's [max] is not below 20, and ends at no node although
    (20,30) is stored. *)
Lemma insert_find_round_trip_fails :
  (exists p m1,
     Insert 5 5 "v"%string empty_map = Ok (p, m1) /\
     Forall (fun e => overlaps 5 5 (fst e) = false) (entries (m_pRoot m1)) /\
     Find 5 5 m1 = Undefined MissingReturn /\
     find_path 5 5 (m_pRoot m1) = nullptr) /\
  (exists m1,
     run [OpInsert 10 11 "a"%string; OpInsert 1 20 "b"%string;
          OpInsert 20 30 "c"%string] empty_map = Ok m1 /\
     valid (m_pRoot m1) /\
     In (mkKey 20 30, "c"%string) (entries (m_pRoot m1)) /\
     Find 20 30 m1 = Undefined MissingReturn /\
     find_path 20 30 (m_pRoot m1) = nullptr).
Proof.
  split.
  - do 2 eexists. split; [reflexivity|]. cbn [m_pRoot].
    split; [repeat constructor|]. split; reflexivity.
  - eexists. split; [reflexivity|]. cbn [m_pRoot].
    split; [vm_compute; repeat split; try constructor; try discriminate; auto|].
    split; [simpl; auto|]. split; reflexivity.
Qed.

(** ** Scenarios *)

(** C1.  The invariants are not kept by every sequence: deleting a node with
    two children is undefined unless the right child is a leaf.  After
    inserting 2, 1, 3, 4 the tree is valid; [Delete(2)] copies node 3, whose
    copy owns node 4 a second time and destroys it at the end of the block,
    while the tree still holds it.  After inserting 2, 1, 4, 3 the call
    [FindMinimum] inside [Delete(2)] ends without a [return]. *)
Theorem delete_two_children_breaks_run :
  (exists m,
     run [OpInsert 2 3 "a"%string; OpInsert 1 2 "b"%string;
          OpInsert 3 4 "c"%string; OpInsert 4 5 "d"%string] empty_map = Ok m /\
     valid (m_pRoot m) /\
     deletable (lookup_lo 2 (m_pRoot m)) = false /\
     run [OpDelete 2] m = Undefined (ReleasedWhileOwned 3)) /\
  run [OpInsert 2 3 "a"%string; OpInsert 1 2 "b"%string;
       OpInsert 3 4 "c"%string; OpInsert 4 5 "d"%string; OpDelete 2] empty_map
    = Undefined (ReleasedWhileOwned 3) /\
  (exists m,
     run [OpInsert 2 3 "a"%string; OpInsert 1 2 "b"%string;
          OpInsert 4 5 "c"%string; OpInsert 3 4 "d"%string] empty_map = Ok m /\
     valid (m_pRoot m) /\
     deletable (lookup_lo 2 (m_pRoot m)) = false /\
     run [OpDelete 2] m = Undefined MissingReturn) /\
  run [OpInsert 2 3 "a"%string; OpInsert 1 2 "b"%string;
       OpInsert 4 5 "c"%string; OpInsert 3 4 "d"%string; OpDelete 2] empty_map
    = Undefined MissingReturn.
Proof.
  split; [|split; [reflexivity|split; [|reflexivity]]];
    (eexists; split; [reflexivity|]); cbn [m_pRoot];
    (split; [vm_compute; repeat split; try constructor; try discriminate; auto
            | split; reflexivity]).
Qed.

(** C2.  [Delete] does not recompute [max] on its way back up: after
    inserting (2,3) and (1,10) and deleting 1, the root still caches 10,
    while the only interval left ends at 3. *)
Theorem delete_leaves_stale_max :
  exists m,
    run [OpInsert 2 3 "a"%string; OpInsert 1 10 "b"%string; OpDelete 1] empty_map
      = Ok m /\
    entries (m_pRoot m) = [(mkKey 2 3, "a"%string)] /\
    GetMax (m_pRoot m) = 10 /\
    ~ max_ok (m_pRoot m).
Proof.
  eexists. split; [reflexivity|]. cbn [m_pRoot].
  split; [reflexivity|]. split; [reflexivity|].
  simpl. intros (H & _). discriminate.
Qed.

(** C4.  The recursive branches of [Find] do not hand their result back:
    [Find] returns only on an empty tree and on a tree whose root overlaps
    the query.  With (10,11) at the root and (20,30) to its right, the
    search path for (20, 30) ends at the stored node (20,30), but
    [Find(20, 30)] flows off its end; with (1,5) alone the path for
    (10, 20) ends at an empty subtree, and [Find(10, 20)] flows off its end
    instead of returning not-found. *)
Theorem Find_drops_the_subtree_result :
  (forall lo' hi' (m : IntervalAVLMap string) r,
     Find lo' hi' m = Ok r <->
     r = m_pRoot m /\
     (m_pRoot m = nullptr \/ root_overlaps lo' hi' (m_pRoot m) = true)) /\
  (exists m,
     run [OpInsert 10 11 "a"%string; OpInsert 20 30 "b"%string] empty_map = Ok m /\
     valid (m_pRoot m) /\
     entry_of (find_path 20 30 (m_pRoot m)) = Some (mkKey 20 30, "b"%string) /\
     Find 20 30 m = Undefined MissingReturn) /\
  (exists m,
     run [OpInsert 1 5 "a"%string] empty_map = Ok m /\
     valid (m_pRoot m) /\
     find_path 10 20 (m_pRoot m) = nullptr /\
     Find 10 20 m = Undefined MissingReturn).
Proof.
  split.
  { intros lo' hi' m r. rewrite Find_Find_node. apply Find_node_Ok. }
  split; (eexists; split; [reflexivity|]); cbn [m_pRoot];
    (split; [vm_compute; repeat split; try constructor; try discriminate; auto
            | split; reflexivity]).
Qed.

(** C5, as the code has it.  Inserting (5, 10, A) and then (5, 20, B) leaves
    one node; it holds the interval (5, 10) of the first insertion and the
    value B of the second. *)
Theorem insert_same_lo_keeps_interval :
  exists m,
    run [OpInsert 5 10 "A"%string; OpInsert 5 20 "B"%string] empty_map = Ok m /\
    m_pRoot m = Node 0%nat (mkKey 5 10) "B"%string 10 0 nullptr nullptr /\
    entries (m_pRoot m) = [(mkKey 5 10, "B"%string)].
Proof.
  eexists. split; [reflexivity|]. split; reflexivity.
Qed.

(** C5, as the spec has it, fails: no node holds [hi = 20]. *)
Lemma insert_same_lo_does_not_store_new_hi :
  exists m,
    run [OpInsert 5 10 "A"%string; OpInsert 5 20 "B"%string] empty_map = Ok m /\
    ~ In (mkKey 5 20, "B"%string) (entries (m_pRoot m)) /\
    Forall (fun e => hi (fst e) <> 20) (entries (m_pRoot m)).
Proof.
  eexists. split; [reflexivity|]. cbn [m_pRoot]. simpl. split.
  - intros [H|[]]. discriminate.
  - repeat constructor. simpl. lia.
Qed.

(** C6.  [Delete] of a node with two children whose successor is not the
    right child itself: [FindMinimum] descends, drops the result and ends
    without a [return].  Nothing is removed in a defined way. *)
Theorem Delete_two_children_missing_return :
  exists m,
    run [OpInsert 2 3 "a"%string; OpInsert 1 2 "b"%string;
         OpInsert 4 5 "c"%string; OpInsert 3 4 "d"%string] empty_map = Ok m /\
    valid (m_pRoot m) /\
    map lo_of (entries (m_pRoot m)) = [1; 2; 3; 4] /\
    FindMinimum (right_of (m_pRoot m)) = Undefined MissingReturn /\
    Delete 2 m = Undefined MissingReturn.
Proof.
  eexists. split; [reflexivity|]. cbn [m_pRoot].
  split; [vm_compute; repeat split; try constructor; try discriminate; auto|].
  split; [reflexivity|]. split; reflexivity.
Qed.

(** C9.  The copy [min] of the successor, made by [Node(const Node&)], owns
    the successor's right child a second time.  After inserting 2, 1, 3, 4
    every object has one owner; in [Delete(2)] the successor is object 2
    and its right child is object 3; the inner [Delete] splices object 3
    into the tree, and the destructor of [min] then destroys it. *)
Theorem Delete_destroys_an_owned_node :
  exists m,
    run [OpInsert 2 3 "a"%string; OpInsert 1 2 "b"%string;
         OpInsert 3 4 "c"%string; OpInsert 4 5 "d"%string] empty_map = Ok m /\
    ownership_ok m /\
    get (right_of (m_pRoot m)) = Some 2%nat /\
    get (right_of (right_of (m_pRoot m))) = Some 3%nat /\
    (exists r1 rel,
       Delete_node 3 (right_of (m_pRoot m)) = Ok (r1, rel) /\
       get r1 = Some 3%nat /\ rel = [2%nat]) /\
    Delete 2 m = Undefined (ReleasedWhileOwned 3).
Proof.
  eexists. split; [reflexivity|]. cbn [m_pRoot].
  split.
  { unfold ownership_ok. simpl. split.
    - repeat constructor; simpl; intuition discriminate.
    - repeat constructor. }
  split; [reflexivity|]. split; [reflexivity|].
  split; [|reflexivity].
  do 2 eexists. split; [reflexivity|]. split; reflexivity.
Qed.

(** ** The rebalancing step *)

Section BalanceClaim.

Context {TValue : Type}.
Implicit Types p l r node t : NodePtr TValue.

Lemma height_fresh_CalcMax p : height_fresh p -> height_fresh (CalcMax p).
Proof.
  unfold height_fresh. destruct p as [|a k v m h l r]; [reflexivity|].
  simpl. intros H. injection H as H. rewrite CalcHeight_Node in *.
  now rewrite H.
Qed.

(** C8, as the code has it.  A call of [Balance] that returns leaves the
    tree of the table: balance factor below [-1], right rotation of the
    right child (if that child's factor is at least 1) and left rotation of
    the node; above [1], left rotation of the left child (if its factor is
    at most [-1]) and right rotation of the node; else nothing.  The stored
    mappings keep their order.  At a node whose subtrees carry right
    counters, as in every frame of [Insert] and [Delete], the call does
    return.  Each rotation is the textbook one, recomputes [max] at the node
    that goes down and then at the node that comes up, and touches no
    [height] counter.  After its last rotation [Balance] recomputes the
    counter of the new root and then those of its two children, so that on
    return the [max] of the root and of each rotated child and the counters
    of both children are up to date; the counter of the root is brought up
    to date by the assignment that follows [Balance] in [Insert] and in
    [Delete]. *)
Theorem Balance_follows_the_table a k v m h l r :
  (forall t,
     Balance (Node a k v m h l r) = Ok t ->
     skeleton t =
       rebalance_table (GetHeight l - GetHeight r) (balance_factor l)
         (balance_factor r) (skeleton (Node a k v m h l r)) /\
     entries t = entries (Node a k v m h l r) /\
     (-1 <= GetHeight l - GetHeight r <= 1 -> t = Node a k v m h l r) /\
     (GetHeight l - GetHeight r < -1 \/ 1 < GetHeight l - GetHeight r ->
        max_fresh t /\ height_fresh (left_of t) /\ height_fresh (right_of t)) /\
     (GetHeight l - GetHeight r < -1 -> max_fresh (left_of t)) /\
     (1 < GetHeight l - GetHeight r -> max_fresh (right_of t)) /\
     (GetHeight l - GetHeight r < -1 -> 1 <= balance_factor r ->
        max_fresh (right_of t)) /\
     (1 < GetHeight l - GetHeight r -> balance_factor l <= -1 ->
        max_fresh (left_of t)) /\
     (exists t1, Insert_unwind (Node a k v m h l r) = Ok t1 /\ height_fresh t1) /\
     (exists t2, Delete_unwind (Node a k v m h l r) = Ok t2 /\ height_fresh t2)) /\
  (heights_exact l -> heights_exact r ->
     exists t, Balance (Node a k v m h l r) = Ok t) /\
  (forall p t,
     RightRotation p = Ok t ->
     skeleton t = rotate_right (skeleton p) /\
     max_fresh t /\ max_fresh (right_of t) /\
     GetHeight t = GetHeight (left_of p) /\ GetHeight (right_of t) = GetHeight p) /\
  (forall p t,
     LeftRotation p = Ok t ->
     skeleton t = rotate_left (skeleton p) /\
     max_fresh t /\ max_fresh (left_of t) /\
     GetHeight t = GetHeight (right_of p) /\ GetHeight (left_of t) = GetHeight p).
Proof.
  split; [|split; [|split]].
  - intros t E.
    destruct (Balance_Ok_table a k v m h l r t E)
      as (Hsk & Hid & Hrot & Hml & Hmr & Hdr & Hdl).
    assert (Hst : exists t1, store_height t = Ok t1).
    { destruct t; [|eexists; reflexivity].
      exfalso. eapply Balance_nonnull; [exact E | reflexivity]. }
    destruct Hst as (t1 & E1).
    repeat split; try assumption; try (apply Hrot; assumption).
    + now apply Balance_entries.
    + exists (CalcMax t1). unfold Insert_unwind. rewrite E. simpl. rewrite E1.
      split; [reflexivity|].
      apply height_fresh_CalcMax. eapply store_height_fresh; eassumption.
    + exists t1. unfold Delete_unwind. rewrite E. simpl.
      split; [assumption|]. eapply store_height_fresh; eassumption.
  - apply Balance_defined.
  - apply RightRotation_shape.
  - apply LeftRotation_shape.
Qed.

End BalanceClaim.

Lemma Balance_follows_the_table_witness :
  exists t,
    Balance (Node 0%nat (mkKey 1 2) "a"%string 3 1 nullptr
               (Node 1%nat (mkKey 2 3) "b"%string 4 1 nullptr
                  (Node 2%nat (mkKey 3 4) "c"%string 4 0 nullptr nullptr)))
      = Ok t /\
    skeleton t = Bin 1%nat (Bin 0%nat Tip Tip) (Bin 2%nat Tip Tip) /\
    max_fresh t /\ max_fresh (left_of t) /\
    height_fresh (left_of t) /\ height_fresh (right_of t).
Proof.
  destruct (Balance_follows_the_table 0%nat (mkKey 1 2) "a"%string 3 1 nullptr
              (Node 1%nat (mkKey 2 3) "b"%string 4 1 nullptr
                 (Node 2%nat (mkKey 3 4) "c"%string 4 0 nullptr nullptr)))
    as (Htab & Hdef & _ & _).
  destruct Hdef as (t & E).
  - exact I.
  - simpl. repeat split; reflexivity.
  - exists t. split; [exact E|].
    destruct (Htab t E) as (Hsk & _ & _ & Hrot & Hml & _).
    split; [exact Hsk|].
    destruct Hrot as (H1 & H2 & H3); [left; simpl; lia|].
    repeat split; try assumption. apply Hml. simpl. lia.
Defined.

(** C8, as the spec has it, fails in its last part: the rotations leave the
    [height] counters alone.  Third frame of the insertions 1, 2, 3: when
    [LeftRotation] returns, the node that went down still carries the
    counter 1 although it has no children; and when [Balance] returns, the
    new root carries the counter 2, computed from that stale 1, over two
    leaves. *)
Lemma rotation_leaves_height_stale :
  let node :=
    Node 0%nat (mkKey 1 2) "a"%string 3 1 nullptr
      (Node 1%nat (mkKey 2 3) "b"%string 4 1 nullptr
         (Node 2%nat (mkKey 3 4) "c"%string 4 0 nullptr nullptr)) in
  (exists l1,
     Insert_node 2%nat (mkKey 3 4) "c"%string
       (Node 1%nat (mkKey 2 3) "b"%string 3 0 nullptr nullptr) = Ok l1 /\
     node = Node 0%nat (mkKey 1 2) "a"%string 3 1 nullptr l1) /\
  (exists t,
     LeftRotation node = Ok t /\
     GetHeight (left_of t) = 1 /\ CalcHeight (left_of t) = 0 /\
     ~ height_fresh (left_of t)) /\
  (exists t,
     Balance node = Ok t /\
     GetHeight t = 2 /\ CalcHeight t = 1 /\ ~ height_fresh t).
Proof.
  cbv zeta. split; [|split].
  - eexists. split; reflexivity.
  - eexists. split; [reflexivity|]. split; [reflexivity|]. split; [reflexivity|].
    unfold height_fresh. simpl. intros H. discriminate.
  - eexists. split; [reflexivity|]. split; [reflexivity|]. split; [reflexivity|].
    unfold height_fresh. simpl. intros H. discriminate.
Qed.

(** * Further properties of the code *)

(** ** Rebalancing *)

Section MoreBalance.

Context {TValue : Type}.
Implicit Types p l r node t : NodePtr TValue.

(** X1.  [Balance] followed by the recomputation of the counter, as in every
    frame of [Insert] and [Delete]: at a node whose two subtrees are
    balanced, carry right counters and differ in height by at most 2, the
    two statements return a balanced tree with right counters that holds
    the same mappings in the same order and owns the same objects; its
    height is the larger of the two subtree heights or one more, and one
    more when the node was balanced already.  A search tree stays one. *)
Theorem Balance_restores_balance a k v m h l r :
  heights_exact l -> heights_exact r -> balanced l -> balanced r ->
  -2 <= depth l - depth r <= 2 ->
  exists t1 t,
    Balance (Node a k v m h l r) = Ok t1 /\ store_height t1 = Ok t /\
    heights_exact t /\ balanced t /\
    entries t = entries (Node a k v m h l r) /\
    addrs t = addrs (Node a k v m h l r) /\
    (bst (Node a k v m h l r) -> bst t) /\
    Z.max (depth l) (depth r) <= depth t <= 1 + Z.max (depth l) (depth r) /\
    (-1 <= depth l - depth r <= 1 -> depth t = 1 + Z.max (depth l) (depth r)).
Proof.
  intros Hl Hr Bl Br Hd.
  destruct (Balance_store_height a k v m h l r Hl Hr Bl Br Hd)
    as (t1 & t & E1 & E2 & He & Hb & Hd1 & Hd2).
  exists t1, t.
  assert (En : entries t = entries (Node a k v m h l r)).
  { now rewrite (store_height_entries _ _ E2), (Balance_entries _ _ E1). }
  repeat split; try assumption; try lia.
  - now rewrite (store_height_addrs _ _ E2), (Balance_addrs _ _ E1).
  - intros Hs. apply bst_sorted. rewrite En. now apply bst_sorted.
Qed.

(** X2.  The two rotations undo each other: on a node whose cached [max] and
    that of the child that comes up are up to date, a right rotation
    followed by a left rotation gives the node back, and so does a left
    rotation followed by a right one. *)
Theorem rotations_are_inverse p t :
  max_fresh p ->
  (max_fresh (left_of p) -> RightRotation p = Ok t -> LeftRotation t = Ok p) /\
  (max_fresh (right_of p) -> LeftRotation p = Ok t -> RightRotation t = Ok p).
Proof.
  unfold max_fresh. intros Hp. split; intros Hc H.
  - destruct p as [|a k v m h [|la lk lv lm lh ll lr] r]; simpl in H;
      try discriminate.
    inv H. cbn [left_of] in Hc. simpl in Hp, Hc. simpl.
    injection Hp as Hp. injection Hc as Hc.
    unfold GetMax in *. rewrite Hc, Hp. reflexivity.
  - destruct p as [|a k v m h l [|ra rk rv rm rh rl rr]]; simpl in H;
      try discriminate.
    inv H. cbn [right_of] in Hc. simpl in Hp, Hc. simpl.
    injection Hp as Hp. injection Hc as Hc.
    unfold GetMax in *. rewrite Hc, Hp. reflexivity.
Qed.

End MoreBalance.

(** ** Insertion *)

Section MoreInsert.

Context {TValue : Type}.
Implicit Types p l r node t : NodePtr TValue.
Implicit Types m : IntervalAVLMap TValue.
Implicit Types es : list (Key * TValue).

Lemma remove_lo_upsert key value es :
  remove_lo (lo key) (upsert key value es) = remove_lo (lo key) es.
Proof.
  induction es as [|[k v] es IH]; cbn [upsert].
  - now rewrite remove_lo_cons_eq.
  - destruct (Z.ltb_spec (lo key) (lo k)).
    + now rewrite remove_lo_cons_eq.
    + rewrite Z.gtb_ltb. destruct (Z.ltb_spec (lo k) (lo key)).
      * rewrite !remove_lo_cons_ne by (unfold lo_of; simpl; lia). now rewrite IH.
      * rewrite !remove_lo_cons_eq by (unfold lo_of; simpl; lia). reflexivity.
Qed.

Lemma upsert_fresh key value es :
  Forall (fun e => lo_of e <> lo key) es ->
  In (key, value) (upsert key value es) /\
  List.length (upsert key value es) = S (List.length es).
Proof.
  induction 1 as [|[k v] es Hx F (IH1 & IH2)]; simpl.
  - split; [now left | reflexivity].
  - unfold lo_of in Hx; simpl in Hx.
    destruct (Z.ltb_spec (lo key) (lo k)).
    + split; [now left | reflexivity].
    + rewrite Z.gtb_ltb. destruct (Z.ltb_spec (lo k) (lo key)); [|lia].
      split; [now right | simpl; now rewrite IH2].
Qed.

Lemma upsert_present key value es k v0 :
  sorted es -> In (k, v0) es -> lo k = lo key ->
  In (k, value) (upsert key value es) /\
  List.length (upsert key value es) = List.length es.
Proof.
  unfold sorted. intros S. revert k v0.
  induction S as [|[k' v'] es S IH F]; intros k v0 Hin Hk; [contradiction|].
  rewrite Forall_forall in F. simpl.
  destruct Hin as [Heq|Hin].
  - inv Heq. destruct (Z.ltb_spec (lo key) (lo k)); [lia|].
    rewrite Z.gtb_ltb. destruct (Z.ltb_spec (lo k) (lo key)); [lia|].
    split; [now left | reflexivity].
  - pose proof (F _ Hin) as Hlt. unfold lo_lt, lo_of in Hlt; simpl in Hlt.
    destruct (Z.ltb_spec (lo key) (lo k')); [lia|].
    rewrite Z.gtb_ltb. destruct (Z.ltb_spec (lo k') (lo key)); [|lia].
    destruct (IH k v0 Hin Hk) as (IH1 & IH2).
    split; [now right | simpl; now rewrite IH2].
Qed.

(** X3.  An accepted insertion into a valid tree returns, leaves a valid
    tree at most one level higher and never lower, destroys nothing, and
    acts on the sorted list of mappings as [upsert]: the mappings with
    another [lo] are untouched; a fresh [lo] adds the mapping
    [(lo, hi, value)]; a [lo] that is stored keeps its interval, takes the
    new value, and the number of mappings stays. *)
Theorem Insert_is_upsert lo' hi' value m :
  lo' <= hi' -> -1 <= hi' -> valid (m_pRoot m) ->
  exists p m1,
    Insert lo' hi' value m = Ok (p, m1) /\
    valid (m_pRoot m1) /\
    released m1 = released m /\
    depth (m_pRoot m) <= depth (m_pRoot m1) <= depth (m_pRoot m) + 1 /\
    entries (m_pRoot m1) = upsert (mkKey lo' hi') value (entries (m_pRoot m)) /\
    remove_lo lo' (entries (m_pRoot m1)) = remove_lo lo' (entries (m_pRoot m)) /\
    (Forall (fun e => lo_of e <> lo') (entries (m_pRoot m)) ->
       In (mkKey lo' hi', value) (entries (m_pRoot m1)) /\
       List.length (entries (m_pRoot m1)) = S (List.length (entries (m_pRoot m)))) /\
    (forall k v0, In (k, v0) (entries (m_pRoot m)) -> lo k = lo' ->
       In (k, value) (entries (m_pRoot m1)) /\
       List.length (entries (m_pRoot m1)) = List.length (entries (m_pRoot m))).
Proof.
  intros Hle Hhi Hv.
  destruct (Insert_node_valid (next_addr m) (mkKey lo' hi') value _ Hhi Hv)
    as (t' & E & Hn & Hv' & En).
  destruct Hv as (Hs & Hb & He & Hm).
  destruct (Insert_node_heights (next_addr m) (mkKey lo' hi') value _ He Hb)
    as (t2 & E2 & _ & _ & _ & Hd).
  rewrite E in E2. inv E2.
  eexists t2, _. split.
  { unfold Insert. destruct (Z.ltb_spec hi' lo'); [lia|]. rewrite E. reflexivity. }
  cbn [m_pRoot released]. rewrite En.
  split; [exact Hv'|]. split; [reflexivity|]. split; [exact Hd|].
  split; [reflexivity|].
  split; [apply (remove_lo_upsert (mkKey lo' hi'))|]. split.
  - intros F. now apply (upsert_fresh (mkKey lo' hi')).
  - intros k v0 Hin Hk.
    eapply (upsert_present (mkKey lo' hi')); try eassumption.
    now apply bst_sorted.
Qed.

Lemma depth_replace_value key value t : depth (replace_value key value t) = depth t.
Proof.
  induction t as [|a k v m h l IHl r IHr]; simpl; [reflexivity|].
  destruct (lo key <? lo k); [|destruct (lo key >? lo k)]; simpl; congruence.
Qed.

Lemma GetMax_replace_value key value t :
  GetMax (replace_value key value t) = GetMax t.
Proof.
  destruct t as [|a k v m h l r]; simpl; [reflexivity|].
  destruct (lo key <? lo k); [|destruct (lo key >? lo k)]; reflexivity.
Qed.

Lemma Forall_lo_replace_value (P : Z -> Prop) key value t :
  Forall (fun e => P (lo_of e)) (entries t) ->
  Forall (fun e => P (lo_of e)) (entries (replace_value key value t)).
Proof.
  induction t as [|a k v m h l IHl r IHr]; simpl; [trivial|].
  intros F. apply Forall_app in F as (Fl & Fr). inv Fr.
  destruct (lo key <? lo k); [|destruct (lo key >? lo k)]; simpl;
    apply Forall_app; split; auto.
Qed.

Lemma valid_replace_value key value t : valid t -> valid (replace_value key value t).
Proof.
  unfold valid. induction t as [|a k v m h l IHl r IHr]; simpl; [trivial|].
  intros ((Fl & Fr & Sl & Sr) & (Hd & Bl & Br) & (Hh & Hl & Hr) & (Hm & Ml & Mr)).
  destruct IHl as (Sl' & Bl' & Hl' & Ml'); [tauto|].
  destruct IHr as (Sr' & Br' & Hr' & Mr'); [tauto|].
  destruct (lo key <? lo k); [|destruct (lo key >? lo k)]; simpl;
    rewrite ?depth_replace_value, ?GetMax_replace_value;
    repeat split; try assumption; try lia.
  - now apply (Forall_lo_replace_value (fun z => z < lo k)).
  - now apply (Forall_lo_replace_value (fun z => lo k < z)).
Qed.

Lemma Insert_unwind_id a k v (mx h : Z) l r :
  valid (Node a k v mx h l r) ->
  Insert_unwind (Node a k v mx h l r) = Ok (Node a k v mx h l r).
Proof.
  intros (_ & Hb & He & Hm & _).
  pose proof (Delete_unwind_id a k v mx h l r He Hb) as H.
  unfold Delete_unwind in H. apply bind_Ok in H as (t1 & E1 & E2).
  unfold Insert_unwind. rewrite E1. cbn [bind]. rewrite E2. cbn [bind].
  rewrite CalcMax_Node. now rewrite <- Hm.
Qed.

Lemma lookup_lo_present t e :
  bst t -> In e (entries t) -> lookup_lo (lo_of e) t <> nullptr.
Proof.
  induction t as [|a k v m h l IHl r IHr]; simpl; [contradiction|].
  intros (Fl & Fr & Sl & Sr) Hin. rewrite Forall_forall in Fl, Fr.
  apply in_app_or in Hin as [Hin|[Heq|Hin]].
  - pose proof (Fl _ Hin).
    destruct (Z.ltb_spec (lo k) (lo_of e)); [lia|].
    destruct (Z.ltb_spec (lo_of e) (lo k)); [auto | lia].
  - subst e. unfold lo_of. simpl. rewrite Z.ltb_irrefl. discriminate.
  - pose proof (Fr _ Hin).
    destruct (Z.ltb_spec (lo k) (lo_of e)); [auto | lia].
Qed.

Lemma lookup_lo_absent key t :
  ~ In key (map lo_of (entries t)) -> lookup_lo key t = nullptr.
Proof.
  induction t as [|a k v m h l IHl r IHr]; simpl; [reflexivity|].
  rewrite map_app, in_app_iff. simpl. intros Hn.
  destruct (Z.ltb_spec (lo k) key); [apply IHr; tauto|].
  destruct (Z.ltb_spec key (lo k)); [apply IHl; tauto|].
  exfalso. apply Hn. right. left. unfold lo_of. simpl. lia.
Qed.

Lemma Insert_node_present fresh key value t :
  valid t -> lookup_lo (lo key) t <> nullptr ->
  Insert_node fresh key value t = Ok (replace_value key value t).
Proof.
  induction t as [|a k v m h l IHl r IHr]; intros Hv Hp; [contradiction|].
  pose proof (valid_replace_value key value _ Hv) as Hv'.
  destruct Hv as ((Fl & Fr & Sl & Sr) & (Hd & Bl & Br) & (Hh & Hl & Hr) & (Hm & Ml & Mr)).
  simpl in Hp, Hv' |- *. rewrite Z.gtb_ltb in *.
  destruct (Z.ltb_spec (lo key) (lo k)).
  - destruct (Z.ltb_spec (lo k) (lo key)); [lia|].
    rewrite IHl by (unfold valid; tauto). cbn [bind].
    now apply Insert_unwind_id.
  - destruct (Z.ltb_spec (lo k) (lo key)).
    + rewrite IHr by (unfold valid; tauto). cbn [bind].
      now apply Insert_unwind_id.
    + reflexivity.
Qed.

Lemma skeleton_replace_value key value t :
  skeleton (replace_value key value t) = skeleton t.
Proof.
  induction t as [|a k v m h l IHl r IHr]; simpl; [reflexivity|].
  destruct (lo key <? lo k); [|destruct (lo key >? lo k)]; simpl; congruence.
Qed.

Lemma keys_replace_value key value t :
  map fst (entries (replace_value key value t)) = map fst (entries t).
Proof.
  induction t as [|a k v m h l IHl r IHr]; cbn [replace_value entries];
    [reflexivity|].
  destruct (lo key <? lo k); [|destruct (lo key >? lo k)]; cbn [entries];
    rewrite !map_app; cbn [map fst]; rewrite ?IHl, ?IHr; reflexivity.
Qed.

(** X5.  Inserting a [lo] that is stored in a valid tree changes the value
    of the node that holds it and nothing else: no node is created, no
    rotation takes place, every interval, counter, cache and address stays,
    whatever [hi] the call was given. *)
Theorem Insert_present_replaces_value lo' hi' value m k v0 :
  lo' <= hi' -> valid (m_pRoot m) ->
  In (k, v0) (entries (m_pRoot m)) -> lo k = lo' ->
  Insert lo' hi' value m =
    Ok (replace_value (mkKey lo' hi') value (m_pRoot m),
        {| m_pRoot := replace_value (mkKey lo' hi') value (m_pRoot m);
           next_addr := S (next_addr m);
           released := released m |}) /\
  skeleton (replace_value (mkKey lo' hi') value (m_pRoot m)) = skeleton (m_pRoot m) /\
  map fst (entries (replace_value (mkKey lo' hi') value (m_pRoot m)))
    = map fst (entries (m_pRoot m)).
Proof.
  intros Hle Hv Hin Hk. split; [|split].
  - unfold Insert. destruct (Z.ltb_spec hi' lo'); [lia|].
    rewrite Insert_node_present; [reflexivity | assumption |].
    cbn [lo]. rewrite <- Hk.
    apply (lookup_lo_present _ (k, v0)); [apply Hv | assumption].
  - apply skeleton_replace_value.
  - apply keys_replace_value.
Qed.

Lemma Insert_node_addrs_cases fresh key value t t' :
  Insert_node fresh key value t = Ok t' ->
  (lookup_lo (lo key) t <> nullptr -> addrs t' = addrs t) /\
  (lookup_lo (lo key) t = nullptr -> Permutation (fresh :: addrs t) (addrs t')).
Proof.
  revert t'. induction t as [|a k v m h l IHl r IHr]; intros t' H.
  - inv H. split; [contradiction|]. intros _. apply Permutation_refl.
  - simpl in H |- *. rewrite Z.gtb_ltb in H.
    destruct (Z.ltb_spec (lo key) (lo k)).
    + destruct (Z.ltb_spec (lo k) (lo key)); [lia|].
      apply bind_Ok in H as (l1 & E & H).
      rewrite (Insert_unwind_addrs _ _ H). simpl.
      destruct (IHl _ E) as (Hp & Ha). split.
      * intros Hn. now rewrite Hp.
      * intros Hn.
        change (fresh :: addrs l ++ a :: addrs r)
          with ((fresh :: addrs l) ++ a :: addrs r).
        apply Permutation_app_tail. now apply Ha.
    + destruct (Z.ltb_spec (lo k) (lo key)).
      * apply bind_Ok in H as (r1 & E & H).
        rewrite (Insert_unwind_addrs _ _ H). simpl.
        destruct (IHr _ E) as (Hp & Ha). split.
        -- intros Hn. now rewrite Hp.
        -- intros Hn.
           eapply perm_trans; [apply Permutation_middle|].
           apply Permutation_app_head.
           eapply perm_trans; [apply perm_swap|]. apply perm_skip. now apply Ha.
      * inv H. split; [reflexivity | discriminate].
Qed.

(** X6.  An insertion destroys no object and creates one exactly when its
    [lo] is not stored: the tree then owns the objects it owned and the new
    one; when the [lo] is stored it owns the same objects, in the same
    order of keys.  Exclusive ownership is kept either way. *)
Theorem Insert_allocates_iff_fresh lo' hi' value m p m1 :
  lo' <= hi' -> Insert lo' hi' value m = Ok (p, m1) ->
  released m1 = released m /\
  (lookup_lo lo' (m_pRoot m) <> nullptr ->
     addrs (m_pRoot m1) = addrs (m_pRoot m)) /\
  (lookup_lo lo' (m_pRoot m) = nullptr ->
     Permutation (next_addr m :: addrs (m_pRoot m)) (addrs (m_pRoot m1))) /\
  (ownership_ok m -> ownership_ok m1).
Proof.
  intros Hle H.
  assert (Ho : ownership_ok m -> ownership_ok m1).
  { intros Ho. apply (apply_op_ownership_ok m (OpInsert lo' hi' value) m1 Ho).
    simpl. now rewrite H. }
  unfold Insert in H. destruct (Z.ltb_spec hi' lo'); [lia|].
  apply bind_Ok in H as (root & E & H). injection H as <- <-. cbn [m_pRoot released].
  destruct (Insert_node_addrs_cases _ _ _ _ _ E) as (Hp & Ha).
  split; [reflexivity|]. split; [exact Hp|]. split; [exact Ha | exact Ho].
Qed.

Lemma upsert_comm k1 v1 k2 v2 es :
  lo k1 <> lo k2 ->
  upsert k1 v1 (upsert k2 v2 es) = upsert k2 v2 (upsert k1 v1 es).
Proof.
  intros Hne. induction es as [|[k v] es IH];
    repeat (cbn [upsert]; rewrite ?Z.gtb_ltb;
            match goal with
            | |- context [?x <? ?y] => destruct (Z.ltb_spec x y); try lia
            end);
    cbn [upsert]; rewrite ?IH; reflexivity.
Qed.

(** X7.  Two accepted insertions with different [lo] commute on what is
    stored: from a balanced search tree with right counters both orders run
    to their end and leave the same mappings (the trees may differ in
    shape). *)
Theorem inserts_commute lo1 hi1 v1 lo2 hi2 v2 m :
  shape_ok (m_pRoot m) -> lo1 <> lo2 ->
  exists m12 m21,
    run [OpInsert lo1 hi1 v1; OpInsert lo2 hi2 v2] m = Ok m12 /\
    run [OpInsert lo2 hi2 v2; OpInsert lo1 hi1 v1] m = Ok m21 /\
    entries (m_pRoot m12) = entries (m_pRoot m21).
Proof.
  intros Hs Hne.
  assert (step : forall lo' hi' value (m0 : IntervalAVLMap TValue),
    shape_ok (m_pRoot m0) ->
    exists m1, apply_op m0 (OpInsert lo' hi' value) = Ok m1 /\
               shape_ok (m_pRoot m1) /\
               entries (m_pRoot m1) = abstract_op (entries (m_pRoot m0))
                                        (OpInsert lo' hi' value)).
  { intros lo' hi' value m0 Hs0. cbn [apply_op abstract_op]. unfold Insert.
    destruct (hi' <? lo').
    - eexists. split; [reflexivity|]. split; [exact Hs0 | reflexivity].
    - destruct (Insert_node_shape_ok (next_addr m0) (mkKey lo' hi') value _ Hs0)
        as (t' & E & _ & Hs' & En).
      rewrite E. eexists. split; [reflexivity|]. split; [exact Hs' | exact En]. }
  destruct (step lo1 hi1 v1 m Hs) as (m1 & E1 & Hs1 & En1).
  destruct (step lo2 hi2 v2 m1 Hs1) as (m12 & E12 & _ & En12).
  destruct (step lo2 hi2 v2 m Hs) as (m2 & E2 & Hs2 & En2).
  destruct (step lo1 hi1 v1 m2 Hs2) as (m21 & E21 & _ & En21).
  exists m12, m21. cbn [run]. rewrite E1, E2. cbn [bind]. rewrite E12, E21.
  cbn [bind]. repeat split.
  rewrite En12, En21, En1, En2. simpl.
  destruct (hi1 <? lo1), (hi2 <? lo2); try reflexivity.
  apply upsert_comm. simpl. congruence.
Qed.

End MoreInsert.

(** ** Deletion *)

Section MoreDelete.

Context {TValue : Type}.
Implicit Types p l r node t : NodePtr TValue.
Implicit Types m : IntervalAVLMap TValue.
Implicit Types es : list (Key * TValue).

Lemma defined_Delete key m :
  defined (Delete key m) <-> defined (Delete_node key (m_pRoot m)).
Proof.
  unfold Delete. split.
  - intros (m2 & H). apply bind_Ok in H as (x & E & _). now exists x.
  - intros ([root rel] & E). rewrite E. eexists. reflexivity.
Qed.

(** X9.  Deleting a [lo] that is not stored, on a balanced search tree with
    right counters (the empty tree is one): the call returns and the map is
    as it was, tree, counters and caches included; nothing is destroyed. *)
Theorem Delete_absent_is_noop key m :
  shape_ok (m_pRoot m) -> ~ In key (map lo_of (entries (m_pRoot m))) ->
  Delete key m = Ok m.
Proof.
  intros Hs Hn. unfold Delete.
  rewrite (Delete_node_absent key _ Hs (lookup_lo_absent key _ Hn)).
  cbn [bind]. rewrite app_nil_r. now destruct m.
Qed.

(** X10.  On a balanced search tree with right counters [Delete(key)]
    returns exactly when the node that holds [key], if there is one, has at
    most one child or a right child that is a leaf.  Where it returns, the
    tree is again a balanced search tree with right counters, at most one
    level lower and never higher, and the stored mappings are those with
    another [lo], in their order. *)
Theorem Delete_returns_iff_deletable key m :
  shape_ok (m_pRoot m) ->
  (defined (Delete key m) <-> deletable (lookup_lo key (m_pRoot m)) = true) /\
  (forall m2, Delete key m = Ok m2 ->
     shape_ok (m_pRoot m2) /\
     entries (m_pRoot m2) = remove_lo key (entries (m_pRoot m)) /\
     depth (m_pRoot m) - 1 <= depth (m_pRoot m2) <= depth (m_pRoot m) /\
     next_addr m2 = next_addr m).
Proof.
  intros Hs. split.
  - rewrite defined_Delete. now apply Delete_node_defined_iff.
  - intros m2 H. unfold Delete in H.
    apply bind_Ok in H as ([root rel] & E & H). inv H. cbn [m_pRoot next_addr].
    destruct (Delete_node_shape_ok _ _ _ _ Hs E) as (Hs' & En).
    destruct Hs as (Hb & Ha & He).
    destruct (Delete_node_spec key _ He Ha Hb _ _ E) as (_ & _ & Hd & _).
    repeat split; try apply Hs'; try assumption; lia.
Qed.

Lemma cells_CalcMax p : cells (CalcMax p) = cells p.
Proof. destruct p; reflexivity. Qed.

Lemma cells_refresh_height p : cells (refresh_height p) = cells p.
Proof. destruct p; reflexivity. Qed.

Lemma RightRotation_cells p t : RightRotation p = Ok t -> cells t = cells p.
Proof.
  destruct p as [|a k v mx h [|la lk lv lm lh ll lr] r]; simpl; try discriminate.
  intros H; inv H; simpl. now rewrite <- app_assoc.
Qed.

Lemma LeftRotation_cells p t : LeftRotation p = Ok t -> cells t = cells p.
Proof.
  destruct p as [|a k v mx h l [|ra rk rv rm rh rl rr]]; simpl; try discriminate.
  intros H; inv H; simpl. now rewrite <- app_assoc.
Qed.

Lemma store_heights_cells p t : store_heights p = Ok t -> cells t = cells p.
Proof.
  destruct p; simpl; try discriminate. intros H; inv H; simpl.
  now rewrite !cells_refresh_height.
Qed.

Lemma store_height_cells p t : store_height p = Ok t -> cells t = cells p.
Proof. destruct p; simpl; try discriminate. now intros H; inv H. Qed.

Lemma Balance_cells p t : Balance p = Ok t -> cells t = cells p.
Proof.
  unfold Balance. intros H.
  apply bind_Ok in H as (b & Hb & H).
  destruct p as [|a k v mx h l r]; [discriminate|].
  destruct (b <? -1).
  - apply bind_Ok in H as (sb & _ & H).
    apply bind_Ok in H as (n1 & Hn1 & H).
    apply bind_Ok in H as (n2 & Hn2 & H).
    rewrite (store_heights_cells _ _ H), (LeftRotation_cells _ _ Hn2).
    destruct (sb >=? 1).
    + apply bind_Ok in Hn1 as (r1 & Hr1 & Hn1). inv Hn1. simpl.
      now rewrite (RightRotation_cells _ _ Hr1).
    + now inv Hn1.
  - destruct (b >? 1).
    + apply bind_Ok in H as (sb & _ & H).
      apply bind_Ok in H as (n1 & Hn1 & H).
      apply bind_Ok in H as (n2 & Hn2 & H).
      rewrite (store_heights_cells _ _ H), (RightRotation_cells _ _ Hn2).
      destruct (sb <=? -1).
      * apply bind_Ok in Hn1 as (l1 & Hl1 & Hn1). inv Hn1. simpl.
        now rewrite (LeftRotation_cells _ _ Hl1).
      * now inv Hn1.
    + now inv H.
Qed.

Lemma Delete_unwind_cells p t : Delete_unwind p = Ok t -> cells t = cells p.
Proof.
  unfold Delete_unwind. intros H.
  apply bind_Ok in H as (t1 & H1 & H).
  now rewrite (store_height_cells _ _ H), (Balance_cells _ _ H1).
Qed.

Lemma NoDup_app_disjoint (xs ys : list addr) :
  NoDup (xs ++ ys) -> forall x, In x xs -> In x ys -> False.
Proof.
  induction xs as [|y xs IH]; simpl; intros Hnd x Hx Hy; [contradiction|].
  apply NoDup_cons_iff in Hnd as (Hn & Hnd).
  destruct Hx as [->|Hx].
  - apply Hn. apply in_or_app. now right.
  - now apply (IH Hnd x).
Qed.

Lemma Delete_node_released key t a k v mx h l r t' rel :
  heights_exact t ->
  lookup_lo key t = Node a k v mx h l r ->
  Delete_node key t = Ok (t', rel) ->
  (l = nullptr \/ r = nullptr -> rel = [a]) /\
  (l <> nullptr -> r <> nullptr ->
     exists ra rk rv,
       get r = Some ra /\ entry_of r = Some (rk, rv) /\ rel = [ra] /\
       In (a, (rk, rv)) (cells t')).
Proof.
  revert t' rel.
  induction t as [|a1 k1 v1 m1 h1 l1 IHl r1 IHr]; intros t' rel He Hlk H;
    [discriminate|].
  destruct He as (Hh & Hl & Hr).
  cbn [lookup_lo Delete_node] in Hlk, H.
  destruct (lo k1 <? key).
  { apply bind_Ok in H as ([r2 rel2] & E & H).
    apply bind_Ok in H as (n1 & E1 & H). inv H.
    destruct (IHr _ _ Hr Hlk E) as (H1 & H2). split; [assumption|].
    intros Hnl Hnr. destruct (H2 Hnl Hnr) as (ra & rk & rv & G1 & G2 & G3 & G4).
    exists ra, rk, rv. repeat split; try assumption.
    rewrite (Delete_unwind_cells _ _ E1). simpl.
    apply in_or_app. right. now right. }
  destruct (key <? lo k1).
  { apply bind_Ok in H as ([l2 rel2] & E & H).
    apply bind_Ok in H as (n1 & E1 & H). inv H.
    destruct (IHl _ _ Hl Hlk E) as (H1 & H2). split; [assumption|].
    intros Hnl Hnr. destruct (H2 Hnl Hnr) as (ra & rk & rv & G1 & G2 & G3 & G4).
    exists ra, rk, rv. repeat split; try assumption.
    rewrite (Delete_unwind_cells _ _ E1). simpl.
    apply in_or_app. now left. }
  injection Hlk as -> -> -> -> -> -> ->.
  pose proof (depth_lower l) as Dl. pose proof (depth_lower r) as Dr.
  destruct (Z.eqb_spec h 0) as [Hz|Hnz].
  { inv H.
    assert (l = nullptr) by (apply depth_null; lia).
    assert (r = nullptr) by (apply depth_null; lia).
    subst l r. split; [reflexivity|]. intros Hn. contradiction. }
  destruct r as [|ra rk rv rm rh rl rr].
  { simpl in H. apply bind_Ok in H as (n1 & E1 & H). inv H.
    split; [reflexivity|]. intros _ Hn. contradiction. }
  destruct l as [|la lk lv lm lh ll lr].
  { cbn [is_null] in H. apply bind_Ok in H as (n1 & E1 & H). inv H.
    split; [reflexivity|]. intros Hn. contradiction. }
  cbn [is_null] in H.
  apply bind_Ok in H as (mn & Emin & H).
  apply FindMinimum_Ok in Emin as (-> & (a0 & k0 & v0 & m0 & h0 & r0 & Eq)).
  inv Eq.
  apply bind_Ok in H as ([r2 rel2] & E & H).
  apply bind_Ok in H as ([] & Ea1 & H).
  apply bind_Ok in H as ([] & Ea2 & H).
  apply bind_Ok in H as (n1 & E1 & H). inv H.
  apply release_alias_Ok, get_None in Ea1. subst r0.
  simpl in E. rewrite Z.ltb_irrefl in E.
  destruct (h0 =? 0); [|simpl in E; discriminate].
  inv E. split; [intros [Hn|Hn]; discriminate|]. intros _ _.
  exists a0, k0, v0. repeat split.
  rewrite (Delete_unwind_cells _ _ E1). simpl.
  apply in_or_app. right. now left.
Qed.

(** X11.  Which object a deletion destroys.  Where [Delete(key, node)]
    returns on a tree with right counters and the node that holds [key] has
    at most one child, the object of that node is destroyed, and it alone.
    When the node has two children, its object stays in the tree and now
    holds the interval and the value of its right child, and the object
    destroyed is that of the right child: a pointer to the node that held
    [key] stays valid and shows another mapping, a pointer to its right
    child dangles.  The object destroyed is no longer in the tree. *)
Theorem Delete_destroys_one_object key t a k v mx h l r t' rel :
  heights_exact t -> NoDup (addrs t) ->
  lookup_lo key t = Node a k v mx h l r ->
  Delete_node key t = Ok (t', rel) ->
  (l = nullptr \/ r = nullptr -> rel = [a] /\ ~ In a (addrs t')) /\
  (l <> nullptr -> r <> nullptr ->
     exists ra rk rv,
       get r = Some ra /\ entry_of r = Some (rk, rv) /\ rel = [ra] /\
       In (a, (rk, rv)) (cells t') /\ ~ In ra (addrs t')).
Proof.
  intros He Hnd Hlk H.
  destruct (Delete_node_released _ _ _ _ _ _ _ _ _ _ _ He Hlk H) as (H1 & H2).
  assert (Hout : forall x, In x rel -> ~ In x (addrs t')).
  { intros x Hx Hin.
    pose proof (Delete_node_addrs _ _ _ _ H) as P.
    apply Permutation_sym in P.
    pose proof (Permutation_NoDup P Hnd) as Hnd'.
    apply (NoDup_app_disjoint _ _ Hnd' x); assumption. }
  split.
  - intros Hc. rewrite (H1 Hc). split; [reflexivity|].
    apply Hout. rewrite (H1 Hc). now left.
  - intros Hnl Hnr. destruct (H2 Hnl Hnr) as (ra & rk & rv & G1 & G2 & G3 & G4).
    exists ra, rk, rv. repeat split; try assumption.
    apply Hout. rewrite G3. now left.
Qed.

End MoreDelete.

(** ** Sequences of operations *)

Section MoreRuns.

Context {TValue : Type}.
Implicit Types p l r node t : NodePtr TValue.
Implicit Types m : IntervalAVLMap TValue.
Implicit Types es : list (Key * TValue).

Lemma apply_op_abstract m o m' :
  shape_ok (m_pRoot m) -> apply_op m o = Ok m' ->
  entries (m_pRoot m') = abstract_op (entries (m_pRoot m)) o.
Proof.
  intros Hs H. destruct o as [lo' hi' value|key]; cbn [apply_op abstract_op] in *.
  - unfold Insert in H. destruct (hi' <? lo').
    + simpl in H. now inv H.
    + apply bind_Ok in H as ([root m1] & H & E). injection E as ->.
      apply bind_Ok in H as (t' & E & H). injection H as <- <-. cbn [m_pRoot].
      eapply Insert_node_entries; [apply Hs | exact E].
  - unfold Delete in H. apply bind_Ok in H as ([root rel] & E & H). inv H.
    cbn [m_pRoot]. eapply Delete_node_shape_ok; eassumption.
Qed.

Lemma run_abstract (ops : list (Op TValue)) m m' :
  shape_ok (m_pRoot m) -> run ops m = Ok m' ->
  entries (m_pRoot m') = fold_left abstract_op ops (entries (m_pRoot m)).
Proof.
  revert m. induction ops as [|o ops IH]; intros m Hs H; cbn [run] in H.
  - now inv H.
  - apply bind_Ok in H as (m1 & E & H).
    cbn [fold_left]. rewrite <- (apply_op_abstract _ _ _ Hs E).
    apply IH; [|exact H]. eapply apply_op_shape_ok; eassumption.
Qed.

(** X13.  Every sequence of insertions and deletions that runs to its end,
    from a balanced search tree with right counters and exclusive
    ownership, leaves such a tree, and the mappings it stores are those of
    the sorted association list on which each accepted insertion is
    [upsert], each rejected one nothing and each deletion [remove_lo]. *)
Theorem run_refines_sorted_list (ops : list (Op TValue)) m m' :
  shape_ok (m_pRoot m) -> ownership_ok m -> run ops m = Ok m' ->
  shape_ok (m_pRoot m') /\ ownership_ok m' /\
  entries (m_pRoot m') = fold_left abstract_op ops (entries (m_pRoot m)).
Proof.
  intros Hs Ho H.
  destruct (run_shape_ok ops m m' Hs Ho H) as (Hs' & Ho').
  split; [exact Hs'|]. split; [exact Ho'|]. now apply run_abstract.
Qed.

(** X8.  A sequence of insertions whose [hi] are not below [-1] always runs
    to its end from the empty map: no call has undefined behaviour, nothing
    is destroyed, and the tree at the end satisfies all four invariants,
    the cached [max] included. *)
Theorem inserts_run_to_a_valid_tree (ops : list (Op TValue)) :
  Forall insertion_above_sentinel ops ->
  exists m,
    run ops empty_map = Ok m /\ valid (m_pRoot m) /\ ownership_ok m /\
    released m = [] /\
    entries (m_pRoot m) = fold_left abstract_op ops [].
Proof.
  intros F.
  destruct (run_inserts ops empty_map F) as (m & E & Hv).
  { repeat split. }
  exists m. split; [exact E|]. split; [exact Hv|].
  destruct (run_shape_ok ops empty_map m empty_map_shape_ok
              empty_map_ownership_ok E) as (Hs & Ho).
  split; [exact Ho|]. split.
  - assert (G : forall (m0 : IntervalAVLMap TValue),
              run ops m0 = Ok m -> released m = released m0);
      [|now rewrite (G empty_map E)].
    clear E Hv Hs Ho.
    induction F as [|o ops Ho F IH]; intros m0 E; cbn [run] in E.
    + now inv E.
    + apply bind_Ok in E as (m1 & E1 & E).
      rewrite (IH _ E). destruct o as [lo' hi' value|key]; [|contradiction].
      cbn [apply_op] in E1. unfold Insert in E1. destruct (hi' <? lo').
      * simpl in E1. now inv E1.
      * apply bind_Ok in E1 as ([root m2] & E1 & E2). injection E2 as ->.
        apply bind_Ok in E1 as (t' & _ & E1). now injection E1 as <- <-.
  - apply (run_abstract ops empty_map m); [apply empty_map_shape_ok | exact E].
Qed.

End MoreRuns.

(** ** Height and cached maximum *)

Section MoreBounds.

Context {TValue : Type}.
Implicit Types p l r node t : NodePtr TValue.
Implicit Types m : IntervalAVLMap TValue.

Lemma size_entries t : size t = Z.of_nat (List.length (entries t)).
Proof.
  induction t as [|a k v mx h l IHl r IHr]; simpl; [reflexivity|].
  rewrite length_app. simpl. lia.
Qed.

Lemma size_nonneg t : 0 <= size t.
Proof. rewrite size_entries. lia. Qed.

Lemma balanced_size t : balanced t -> 2 ^ ((depth t + 2) / 2) <= size t + 1.
Proof.
  induction t as [|a k v mx h l IHl r IHr]; intros Hb.
  - simpl. reflexivity.
  - destruct Hb as (Hd & Bl & Br). specialize (IHl Bl). specialize (IHr Br).
    cbn [depth size].
    pose proof (depth_lower l) as Dl. pose proof (depth_lower r) as Dr.
    set (d := 1 + Z.max (depth l) (depth r)) in *.
    assert (Hdn : 0 <= d) by (unfold d; lia).
    replace (d + 2) with (d + 1 * 2) by lia.
    rewrite Z.div_add by lia.
    assert (Hq : 0 <= d / 2) by (apply Z.div_pos; lia).
    rewrite Z.pow_add_r by lia. rewrite Z.pow_1_r.
    assert (Hl : 2 ^ (d / 2) <= 2 ^ ((depth l + 2) / 2)).
    { apply Z.pow_le_mono_r; [lia|]. apply Z.div_le_mono; unfold d; lia. }
    assert (Hr : 2 ^ (d / 2) <= 2 ^ ((depth r + 2) / 2)).
    { apply Z.pow_le_mono_r; [lia|]. apply Z.div_le_mono; unfold d; lia. }
    lia.
Qed.

(** X14.  The height stays logarithmic: after every sequence of operations
    that runs to its end from the empty map, the [height] counter of the
    root is the height of the tree, and a tree of height [h] stores at
    least [2 ^ ((h + 2) / 2) - 1] mappings. *)
Theorem height_is_logarithmic (ops : list (Op TValue)) m :
  run ops empty_map = Ok m ->
  GetHeight (m_pRoot m) = depth (m_pRoot m) /\
  2 ^ ((GetHeight (m_pRoot m) + 2) / 2)
    <= Z.of_nat (List.length (entries (m_pRoot m))) + 1.
Proof.
  intros H. destruct (run_from_empty ops m H) as ((_ & Hb & He) & _).
  rewrite (GetHeight_exact _ He). split; [reflexivity|].
  rewrite <- size_entries. now apply balanced_size.
Qed.

Lemma max_ok_lower t : max_ok t -> -1 <= GetMax t.
Proof.
  induction t as [|a k v mx h l IHl r IHr]; simpl; [lia|].
  intros (Hm & Ml & Mr). specialize (IHl Ml). lia.
Qed.

(** X15.  What the cached [max] is under the augmentation invariant: no
    stored [hi] of the subtree is above it, it is never below [-1], and
    unless it is [-1] it is the [hi] of a stored interval.  It is the
    largest [hi] of the subtree when that is [-1] at least, and [-1]
    otherwise. *)
Theorem cached_max_bounds_subtree t :
  max_ok t ->
  Forall (fun e => hi (fst e) <= GetMax t) (entries t) /\
  -1 <= GetMax t /\
  (GetMax t = -1 \/ exists e, In e (entries t) /\ hi (fst e) = GetMax t).
Proof.
  intros Hm. split; [|split; [now apply max_ok_lower|]].
  - induction t as [|a k v mx h l IHl r IHr]; simpl; [constructor|].
    destruct Hm as (Hmx & Ml & Mr).
    apply Forall_app. split; [|constructor].
    + eapply Forall_impl; [|apply (IHl Ml)]. simpl. intros; lia.
    + simpl. lia.
    + eapply Forall_impl; [|apply (IHr Mr)]. simpl. intros; lia.
  - induction t as [|a k v mx h l IHl r IHr]; simpl; [now left|].
    destruct Hm as (Hmx & Ml & Mr).
    pose proof (max_ok_lower l Ml). pose proof (max_ok_lower r Mr).
    destruct (Z.max_spec (hi k) (Z.max (GetMax l) (GetMax r))) as [(Hlt & E)|(Hge & E)].
    + destruct (Z.max_spec (GetMax l) (GetMax r)) as [(Hlt2 & E2)|(Hge2 & E2)].
      * destruct (IHr Mr) as [Hr|(e & Hin & He)]; [left; lia|right].
        exists e. split; [apply in_or_app; right; now right | lia].
      * destruct (IHl Ml) as [Hl|(e & Hin & He)]; [left; lia|right].
        exists e. split; [apply in_or_app; now left | lia].
    + right. exists (k, v). split; [apply in_or_app; right; now left | simpl; lia].
Qed.

End MoreBounds.

(** ** The cached maximum across deletions *)

Section MaxUpper.

Context {TValue : Type}.
Implicit Types p l r node t : NodePtr TValue.
Implicit Types m : IntervalAVLMap TValue.

Lemma max_upper_lower t : max_upper t -> -1 <= GetMax t.
Proof.
  induction t as [|a k v mx h l IHl r IHr]; simpl; [lia|].
  intros (Hm & Ml & _). specialize (IHl Ml). lia.
Qed.

Lemma max_upper_refresh_height p : max_upper p -> max_upper (refresh_height p).
Proof. destruct p; simpl; tauto. Qed.

Ltac max_goal :=
  simpl in *; unfold GetMax in *; simpl in *; intuition (try lia).

(** [Balance] and the cached [max]: either the node is returned as it is,
    or the caches of the rotated nodes were recomputed and the cache of the
    new root is not above what the old root had to cover. *)
Lemma Balance_max_upper a k v mx h l r t :
  max_upper l -> max_upper r ->
  Balance (Node a k v mx h l r) = Ok t ->
  t = Node a k v mx h l r \/
  (max_upper t /\ GetMax t <= Z.max (hi k) (Z.max (GetMax l) (GetMax r))).
Proof.
  intros Ml Mr. unfold Balance, GetBalance, bind.
  destruct (GetHeight l - GetHeight r <? -1).
  - destruct r as [|ra rk rv rm rh rl rr]; [discriminate|].
    destruct (GetHeight rl - GetHeight rr >=? 1).
    + destruct rl as [|rla rlk rlv rlm rlh rll rlr]; [discriminate|].
      intros H; inv H. right. simpl in Mr. max_goal.
    + intros H; inv H. right. simpl in Mr.
      destruct rr as [|rra rrk rrv rrm rrh rrl rrr]; max_goal.
  - destruct (GetHeight l - GetHeight r >? 1).
    + destruct l as [|la lk lv lm lh ll lr]; [discriminate|].
      destruct (GetHeight ll - GetHeight lr <=? -1).
      * destruct lr as [|lra lrk lrv lrm lrh lrl lrr]; [discriminate|].
        intros H; inv H. right. simpl in Ml. max_goal.
      * intros H; inv H. right. simpl in Ml.
        destruct ll as [|lla llk llv llm llh lll llr]; max_goal.
    + intros H; inv H. now left.
Qed.

Lemma max_upper_CalcMax a k v mx h l r :
  max_upper l -> max_upper r -> max_upper (CalcMax (Node a k v mx h l r)).
Proof. intros Ml Mr. rewrite CalcMax_Node. simpl. repeat split; try assumption. lia. Qed.

(** The unwind of [Delete] keeps the cached [max] an upper bound, and does
    not raise it at the root. *)
Lemma Delete_unwind_max_upper a k v mx h l r t :
  max_upper (Node a k v mx h l r) ->
  Delete_unwind (Node a k v mx h l r) = Ok t ->
  max_upper t /\ GetMax t <= mx.
Proof.
  intros (Hm & Ml & Mr) H. unfold Delete_unwind in H.
  apply bind_Ok in H as (t1 & E1 & E2).
  destruct (Balance_max_upper _ _ _ _ _ _ _ _ Ml Mr E1) as [->|(Hu & Hb)].
  - simpl in E2. inv E2. simpl. repeat split; try assumption; lia.
  - destruct t1 as [|a1 k1 v1 m1 h1 l1 r1]; simpl in E2; [discriminate|].
    inv E2. simpl in *. repeat split; try tauto; lia.
Qed.

Lemma Insert_unwind_max_upper a k v mx h l r t :
  max_upper l -> max_upper r ->
  Insert_unwind (Node a k v mx h l r) = Ok t -> max_upper t.
Proof.
  intros Ml Mr H. unfold Insert_unwind in H.
  apply bind_Ok in H as (t1 & E1 & H).
  apply bind_Ok in H as (t2 & E2 & H). inv H.
  destruct (Balance_max_upper _ _ _ _ _ _ _ _ Ml Mr E1) as [->|(Hu & Hb)].
  - simpl in E2. inv E2. now apply max_upper_CalcMax.
  - destruct t1 as [|a1 k1 v1 m1 h1 l1 r1]; simpl in E2; [discriminate|].
    inv E2. destruct Hu as (_ & Hl1 & Hr1). now apply max_upper_CalcMax.
Qed.

Lemma Insert_node_max_upper fresh key value t t' :
  -1 <= hi key -> max_upper t -> Insert_node fresh key value t = Ok t' ->
  max_upper t'.
Proof.
  intros Hhi. revert t'. induction t as [|a k v mx h l IHl r IHr]; intros t' Hm H.
  - inv H. simpl. repeat split; lia.
  - simpl in Hm. destruct Hm as (Hmax & Ml & Mr).
    simpl in H. destruct (lo key <? lo k); [|destruct (lo key >? lo k)].
    + apply bind_Ok in H as (l1 & E & H).
      eapply Insert_unwind_max_upper; [| |exact H]; eauto.
    + apply bind_Ok in H as (r1 & E & H).
      eapply Insert_unwind_max_upper; [| |exact H]; eauto.
    + inv H. simpl. auto.
Qed.

Lemma Delete_node_max_upper key t t' rel :
  max_upper t -> Delete_node key t = Ok (t', rel) ->
  max_upper t' /\ GetMax t' <= GetMax t.
Proof.
  revert key t' rel.
  induction t as [|a k v mx h l IHl r IHr]; intros key t' rel Hm H.
  - inv H. simpl. split; [trivial | lia].
  - pose proof Hm as (Hmax & Ml & Mr).
    pose proof (max_upper_lower l Ml) as Ll. pose proof (max_upper_lower r Mr) as Lr.
    cbn [Delete_node] in H. cbn [GetMax].
    destruct (lo k <? key).
    { apply bind_Ok in H as ([r1 rel1] & E & H).
      apply bind_Ok in H as (n1 & E1 & H). inv H.
      destruct (IHr _ _ _ Mr E) as (Mr1 & Hle).
      eapply Delete_unwind_max_upper; [|exact E1].
      simpl. repeat split; try assumption. lia. }
    destruct (key <? lo k).
    { apply bind_Ok in H as ([l1 rel1] & E & H).
      apply bind_Ok in H as (n1 & E1 & H). inv H.
      destruct (IHl _ _ _ Ml E) as (Ml1 & Hle).
      eapply Delete_unwind_max_upper; [|exact E1].
      simpl. repeat split; try assumption. lia. }
    destruct (h =? 0).
    { inv H. simpl. split; [trivial | lia]. }
    destruct r as [|ra rk rv rm rh rl rr].
    { simpl in H. apply bind_Ok in H as (n1 & E1 & H). inv H.
      destruct l as [|la lk lv lm lh ll lr]; [discriminate|].
      destruct (Delete_unwind_max_upper _ _ _ _ _ _ _ _ Ml E1) as (G1 & G2).
      split; [assumption|]. simpl in Hmax. lia. }
    destruct l as [|la lk lv lm lh ll lr].
    { cbn [is_null] in H. apply bind_Ok in H as (n1 & E1 & H). inv H.
      destruct (Delete_unwind_max_upper _ _ _ _ _ _ _ _ Mr E1) as (G1 & G2).
      split; [assumption|]. simpl in Hmax. lia. }
    cbn [is_null] in H.
    apply bind_Ok in H as (mn & Emin & H).
    apply FindMinimum_Ok in Emin as (-> & (a0 & k0 & v0 & m0 & h0 & r0 & Eq)).
    inv Eq.
    apply bind_Ok in H as ([r1 rel1] & E & H).
    apply bind_Ok in H as ([] & Ea1 & H).
    apply bind_Ok in H as ([] & Ea2 & H).
    apply bind_Ok in H as (n1 & E1 & H). inv H.
    destruct (IHr _ _ _ Mr E) as (Mr1 & Hle).
    eapply Delete_unwind_max_upper; [|exact E1].
    simpl in Hmax, Mr, Hle. destruct Mr as (Hr0 & _ & _).
    split; [|split; [exact Ml | exact Mr1]].
    cbn [GetMax]. lia.
Qed.

Lemma max_upper_bounds t :
  max_upper t -> Forall (fun e => hi (fst e) <= GetMax t) (entries t).
Proof.
  induction t as [|a k v mx h l IHl r IHr]; simpl; [constructor|].
  intros (Hmx & Ml & Mr).
  apply Forall_app. split; [|constructor].
  - eapply Forall_impl; [|apply (IHl Ml)]. simpl. intros; lia.
  - simpl. lia.
  - eapply Forall_impl; [|apply (IHr Mr)]. simpl. intros; lia.
Qed.

(** X16.  What [Delete] leaves of the augmentation.  It does not recompute
    the cached [max], but in every sequence of operations that runs to its
    end from the empty map, with no inserted [hi] below [-1], the cache of
    each node stays at or above the node's own [hi] and the caches of its
    children: it can be too high after a deletion, never too low, so that no
    stored [hi] is above the cache of the root. *)
Theorem cached_max_stays_an_upper_bound (ops : list (Op TValue)) m :
  Forall above_sentinel ops -> run ops empty_map = Ok m ->
  max_upper (m_pRoot m) /\
  Forall (fun e => hi (fst e) <= GetMax (m_pRoot m)) (entries (m_pRoot m)).
Proof.
  intros F H.
  assert (G : forall (m0 : IntervalAVLMap TValue),
            max_upper (m_pRoot m0) -> run ops m0 = Ok m -> max_upper (m_pRoot m)).
  { clear H. induction F as [|o ops Ho F IH]; intros m0 Hm H; cbn [run] in H.
    - now inv H.
    - apply bind_Ok in H as (m1 & E & H). apply (IH m1); [|exact H].
      destruct o as [lo' hi' value|key]; cbn [apply_op] in E.
      + unfold Insert in E. destruct (hi' <? lo').
        * simpl in E. now inv E.
        * apply bind_Ok in E as ([root m2] & E & E2). injection E2 as ->.
          apply bind_Ok in E as (t' & E & E3). injection E3 as <- <-.
          cbn [m_pRoot]. eapply Insert_node_max_upper; [|exact Hm|exact E].
          exact Ho.
      + unfold Delete in E. apply bind_Ok in E as ([root rel] & E & E2). inv E2.
        cbn [m_pRoot]. eapply Delete_node_max_upper; eassumption. }
  assert (Hu : max_upper (m_pRoot m)) by (apply (G empty_map); [exact I | exact H]).
  split; [exact Hu | now apply max_upper_bounds].
Qed.

End MaxUpper.

(** ** Insertion followed by deletion *)

Section InsertDelete.

Context {TValue : Type}.
Implicit Types p l r node t : NodePtr TValue.
Implicit Types m : IntervalAVLMap TValue.

Lemma depth_refresh_height p : depth (refresh_height p) = depth p.
Proof. destruct p; reflexivity. Qed.

Lemma depth_lookup_refresh_height key p :
  depth (lookup_lo key (refresh_height p)) = depth (lookup_lo key p).
Proof.
  destruct p as [|a k v mx h l r]; simpl; [reflexivity|].
  destruct (lo k <? key); [reflexivity|].
  destruct (key <? lo k); reflexivity.
Qed.

Lemma depth_le_1_deletable p : depth p <= 1 -> deletable p = true.
Proof.
  destruct p as [|a k v mx h l r]; simpl; [reflexivity|]. intros Hd.
  destruct l as [|la lk lv lm lh ll lr]; [reflexivity|].
  destruct r as [|ra rk rv rm rh rl rr]; [reflexivity|].
  simpl in *.
  pose proof (depth_lower rl). pose proof (depth_lower rr).
  pose proof (depth_lower ll). pose proof (depth_lower lr).
  rewrite (depth_null rl) by lia. rewrite (depth_null rr) by lia. reflexivity.
Qed.

Ltac depth_lowers :=
  repeat match goal with
  | x : NodePtr _ |- _ =>
      lazymatch goal with
      | _ : -1 <= depth x |- _ => fail
      | _ => pose proof (depth_lower x)
      end
  end.

Ltac split_keys :=
  repeat match goal with
  | |- context [?x <? ?y] => destruct (Z.ltb_spec x y); try lia
  end.

Ltac target_done :=
  cbn [lookup_lo depth] in *; intros;
  rewrite ?depth_refresh_height, ?depth_lookup_refresh_height in *;
  depth_lowers; try lia.

(** Where the node with [key] sits after the unwind of an insertion into the
    left subtree. *)
Lemma Insert_unwind_target_left a k v mx h l1 r t' key :
  heights_exact l1 -> heights_exact r -> balanced l1 -> balanced r ->
  bst (Node a k v mx h l1 r) -> key < lo k ->
  -1 <= depth l1 - depth r <= 2 ->
  Insert_unwind (Node a k v mx h l1 r) = Ok t' ->
  (depth l1 - depth r <= 1 ->
     depth (lookup_lo key t') = depth (lookup_lo key l1)) /\
  (depth l1 - depth r = 2 -> depth (lookup_lo key l1) = 0 ->
     0 <= depth (lookup_lo key t') <= 1 /\
     (depth (lookup_lo key t') = 1 -> depth t' = 1 /\ depth l1 = 1)).
Proof.
  intros Hl Hr Bl Br Hs Hk Hd.
  unfold Insert_unwind, Balance, GetBalance, bind.
  rewrite (GetHeight_exact l1 Hl), (GetHeight_exact r Hr).
  destruct (Z.ltb_spec (depth l1 - depth r) (-1)) as [Hlt|Hge]; [lia|].
  rewrite Z.gtb_ltb.
  destruct (Z.ltb_spec 1 (depth l1 - depth r)) as [Hgt|Hle].
  - destruct l1 as [|la lk lv lm lh ll lr].
    { simpl in *. pose proof (depth_lower r). lia. }
    simpl in Hl, Bl. destruct Hl as (Hlh & Hll & Hlr). destruct Bl as (Bld & Bll & Blr).
    rewrite (GetHeight_exact ll Hll), (GetHeight_exact lr Hlr).
    destruct Hs as (Fl & Fr & (Fll & Flr & Sll & Slr) & Sr).
    cbn [entries] in Fl. apply Forall_app in Fl as (Fl1 & Fl2). inv Fl2.
    unfold lo_of in H1; simpl in H1. clear Fl1 H2 Fr Sll Slr Sr Fll.
    destruct (Z.leb_spec (depth ll - depth lr) (-1)) as [Hsub|Hsub].
    + destruct lr as [|lra lrk lrv lrm lrh lrl lrr].
      { simpl in *. pose proof (depth_lower ll). lia. }
      cbn [entries] in Flr. apply Forall_app in Flr as (_ & Flr2). inv Flr2.
      unfold lo_of in H2; simpl in H2. clear H3.
      intros H. cbn [LeftRotation RightRotation store_heights store_height
                     CalcMax refresh_height] in H. inv H.
      split; [intros; cbn [depth] in *; lia|]. intros _.
      cbn [lookup_lo]. split_keys; target_done.
    + clear Flr.
      intros H. cbn [LeftRotation RightRotation store_heights store_height
                     CalcMax refresh_height] in H. inv H.
      split; [intros; cbn [depth] in *; lia|]. intros _.
      cbn [lookup_lo]. split_keys; target_done.
  - intros H. cbn [store_height CalcMax] in H. inv H.
    split; [|intros; lia]. intros _.
    cbn [lookup_lo]. split_keys; reflexivity.
Qed.

(** The same after an insertion into the right subtree. *)
Lemma Insert_unwind_target_right a k v mx h l r1 t' key :
  heights_exact l -> heights_exact r1 -> balanced l -> balanced r1 ->
  bst (Node a k v mx h l r1) -> lo k < key ->
  -2 <= depth l - depth r1 <= 1 ->
  Insert_unwind (Node a k v mx h l r1) = Ok t' ->
  (-1 <= depth l - depth r1 ->
     depth (lookup_lo key t') = depth (lookup_lo key r1)) /\
  (depth l - depth r1 = -2 -> depth (lookup_lo key r1) = 0 ->
     0 <= depth (lookup_lo key t') <= 1 /\
     (depth (lookup_lo key t') = 1 -> depth t' = 1 /\ depth r1 = 1)).
Proof.
  intros Hl Hr Bl Br Hs Hk Hd.
  unfold Insert_unwind, Balance, GetBalance, bind.
  rewrite (GetHeight_exact l Hl), (GetHeight_exact r1 Hr).
  destruct (Z.ltb_spec (depth l - depth r1) (-1)) as [Hlt|Hge].
  - destruct r1 as [|ra rk rv rm rh rl rr].
    { simpl in *. pose proof (depth_lower l). lia. }
    simpl in Hr, Br. destruct Hr as (Hrh & Hrl & Hrr). destruct Br as (Brd & Brl & Brr).
    rewrite (GetHeight_exact rl Hrl), (GetHeight_exact rr Hrr).
    destruct Hs as (Fl & Fr & Sl & (Frl & Frr & Srl & Srr)).
    cbn [entries] in Fr. apply Forall_app in Fr as (Fr1 & Fr2). inv Fr2.
    unfold lo_of in H1; simpl in H1. clear Fr1 H2 Fl Sl Srl Srr Frr.
    rewrite Z.geb_leb.
    destruct (Z.leb_spec 1 (depth rl - depth rr)) as [Hsub|Hsub].
    + destruct rl as [|rla rlk rlv rlm rlh rll rlr].
      { simpl in *. pose proof (depth_lower rr). lia. }
      cbn [entries] in Frl. apply Forall_app in Frl as (_ & Frl2). inv Frl2.
      unfold lo_of in H2; simpl in H2. clear H3.
      intros H. cbn [LeftRotation RightRotation store_heights store_height
                     CalcMax refresh_height] in H. inv H.
      split; [intros; cbn [depth] in *; lia|]. intros _.
      cbn [lookup_lo]. split_keys; target_done.
    + clear Frl.
      intros H. cbn [LeftRotation RightRotation store_heights store_height
                     CalcMax refresh_height] in H. inv H.
      split; [intros; cbn [depth] in *; lia|]. intros _.
      cbn [lookup_lo]. split_keys; target_done.
  - rewrite Z.gtb_ltb.
    destruct (Z.ltb_spec 1 (depth l - depth r1)) as [Hgt|Hle]; [lia|].
    intros H. cbn [store_height CalcMax] in H. inv H.
    split; [|intros; lia]. intros _.
    cbn [lookup_lo]. split_keys; reflexivity.
Qed.

(** After the insertion of a [lo] that was not stored, the node that holds
    it is a leaf or has leaves below it and nothing else; in the second
    case the tree did not grow. *)
Lemma Insert_node_target fresh key value t t' :
  shape_ok t -> lookup_lo (lo key) t = nullptr ->
  Insert_node fresh key value t = Ok t' ->
  0 <= depth (lookup_lo (lo key) t') <= 1 /\
  (depth (lookup_lo (lo key) t') = 1 -> depth t' = depth t).
Proof.
  revert t'. induction t as [|a k v mx h l IHl r IHr]; intros t' Hs Hlk H.
  - inv H. cbn [lookup_lo]. rewrite Z.ltb_irrefl. simpl. lia.
  - pose proof (Insert_node_bst _ _ _ _ _ (proj1 Hs) H) as Hbst'.
    destruct Hs as ((Fl & Fr & Sl & Sr) & (Hd & Bl & Br) & (Hh & Hl & Hr)).
    cbn [lookup_lo] in Hlk. cbn [Insert_node] in H. rewrite Z.gtb_ltb in H.
    destruct (Z.ltb_spec (lo k) (lo key)) as [Hgt|Hle].
    + destruct (Z.ltb_spec (lo key) (lo k)); [lia|].
      apply bind_Ok in H as (r1 & E & H).
      assert (Sor : shape_ok r) by (repeat split; assumption).
      destruct (IHr _ Sor Hlk E) as (Hq1 & Hq2).
      destruct (Insert_node_heights fresh key value r Hr Br)
        as (r2 & E' & _ & Hr1 & Br1 & Hd1).
      rewrite E in E'. injection E' as <-.
      assert (HsN : bst (Node a k v mx h l r1)).
      { apply bst_sorted. rewrite <- (Insert_unwind_entries _ _ H).
        now apply bst_sorted. }
      destruct (Insert_unwind_heights a k v mx h l r1 Hl Hr1 Bl Br1)
        as (t2 & E2 & _ & _ & _ & _ & Hd3); [lia|].
      rewrite E2 in H. injection H as ->.
      destruct (Insert_unwind_target_right a k v mx h l r1 t' (lo key)
                  Hl Hr1 Bl Br1 HsN Hgt) as (G1 & G2); [lia | exact E2 |].
      cbn [depth].
      destruct (Z.le_gt_cases (-1) (depth l - depth r1)) as [Hc|Hc].
      * rewrite (G1 Hc). split; [exact Hq1|]. intros H1.
        rewrite Hd3 by lia. rewrite (Hq2 H1). reflexivity.
      * assert (Hq0 : depth (lookup_lo (lo key) r1) = 0) by lia.
        destruct G2 as (G3 & G4); [lia | exact Hq0 |].
        split; [exact G3|]. intros H1. destruct (G4 H1) as (G5 & G6).
        pose proof (depth_lower l). lia.
    + destruct (Z.ltb_spec (lo key) (lo k)) as [Hlt|Hge]; [|discriminate].
      apply bind_Ok in H as (l1 & E & H).
      assert (Sol : shape_ok l) by (repeat split; assumption).
      destruct (IHl _ Sol Hlk E) as (Hq1 & Hq2).
      destruct (Insert_node_heights fresh key value l Hl Bl)
        as (l2 & E' & _ & Hl1 & Bl1 & Hd1).
      rewrite E in E'. injection E' as <-.
      assert (HsN : bst (Node a k v mx h l1 r)).
      { apply bst_sorted. rewrite <- (Insert_unwind_entries _ _ H).
        now apply bst_sorted. }
      destruct (Insert_unwind_heights a k v mx h l1 r Hl1 Hr Bl1 Br)
        as (t2 & E2 & _ & _ & _ & _ & Hd3); [lia|].
      rewrite E2 in H. injection H as ->.
      destruct (Insert_unwind_target_left a k v mx h l1 r t' (lo key)
                  Hl1 Hr Bl1 Br HsN Hlt) as (G1 & G2); [lia | exact E2 |].
      cbn [depth].
      destruct (Z.le_gt_cases (depth l1 - depth r) 1) as [Hc|Hc].
      * rewrite (G1 Hc). split; [exact Hq1|]. intros H1.
        rewrite Hd3 by lia. rewrite (Hq2 H1). reflexivity.
      * assert (Hq0 : depth (lookup_lo (lo key) l1) = 0) by lia.
        destruct G2 as (G3 & G4); [lia | exact Hq0 |].
        split; [exact G3|]. intros H1. destruct (G4 H1) as (G5 & G6).
        pose proof (depth_lower r). lia.
Qed.

(** X12.  Insertion of a [lo] that is not stored, followed by its deletion:
    on a balanced search tree with right counters both calls return, however
    the insertion rebalanced the tree, and the mappings stored at the end
    are those stored at the start; the tree is again a balanced search tree
    with right counters. *)
Theorem insert_fresh_then_delete lo' hi' value m :
  lo' <= hi' -> shape_ok (m_pRoot m) ->
  ~ In lo' (map lo_of (entries (m_pRoot m))) ->
  exists p m1 m2,
    Insert lo' hi' value m = Ok (p, m1) /\
    Delete lo' m1 = Ok m2 /\
    entries (m_pRoot m2) = entries (m_pRoot m) /\
    shape_ok (m_pRoot m2).
Proof.
  intros Hle Hs Hfresh.
  destruct (Insert_node_shape_ok (next_addr m) (mkKey lo' hi') value _ Hs)
    as (t1 & E & _ & Hs1 & En).
  destruct (Insert_node_target (next_addr m) (mkKey lo' hi') value _ _ Hs
              (lookup_lo_absent _ _ Hfresh) E) as (Hq & _).
  cbn [lo] in Hq.
  assert (Hdef : defined (Delete_node lo' t1)).
  { apply (Delete_node_defined_iff lo' t1 Hs1).
    apply depth_le_1_deletable. lia. }
  destruct Hdef as ([t2 rel] & Ed).
  destruct (Delete_node_shape_ok _ _ _ _ Hs1 Ed) as (Hs2 & En2).
  eexists t1, _, _. split; [|split; [|split]].
  - unfold Insert. destruct (Z.ltb_spec hi' lo'); [lia|]. rewrite E. reflexivity.
  - unfold Delete. cbn [m_pRoot]. rewrite Ed. reflexivity.
  - cbn [m_pRoot]. rewrite En2, En.
    change lo' with (lo (mkKey lo' hi')) at 1.
    rewrite remove_lo_upsert. cbn [lo].
    apply remove_lo_none. apply Forall_forall. intros e Hin Heq.
    apply Hfresh. rewrite <- Heq. now apply in_map.
  - exact Hs2.
Qed.

End InsertDelete.

(** ** Find and FindMinimum *)

Section MoreFind.

Context {TValue : Type}.
Implicit Types p l r node t : NodePtr TValue.
Implicit Types m : IntervalAVLMap TValue.

(** X4.  [Find(lo, hi)] reaches a [return] exactly when the map is empty or
    the interval of the root overlaps the query ([hi > root.lo] and
    [lo < root.hi]), and it then returns the root pointer.  With any other
    non-empty map the call descends, drops what the inner call gives and
    flows off the end of the function: no stored mapping below the root is
    ever returned.  No execution dereferences a null pointer. *)
Theorem Find_returns_only_at_the_root lo' hi' m :
  (m_pRoot m = nullptr \/ root_overlaps lo' hi' (m_pRoot m) = true ->
     Find lo' hi' m = Ok (m_pRoot m)) /\
  (m_pRoot m <> nullptr -> root_overlaps lo' hi' (m_pRoot m) = false ->
     Find lo' hi' m = Undefined MissingReturn).
Proof.
  split.
  - intros H. unfold Find. destruct (is_null (m_pRoot m)) eqn:En.
    + destruct (m_pRoot m); [reflexivity | discriminate].
    + apply Find_node_Ok. split; [reflexivity | exact H].
  - intros Hn Ho. unfold Find. destruct (m_pRoot m) as [|a k v mx h l r] eqn:E.
    + congruence.
    + cbn [is_null]. apply Find_node_falls_off; [discriminate | exact Ho].
Qed.

(** Below a node, [FindMinimum] never meets a null pointer. *)
Lemma FindMinimum_fault p f :
  p <> nullptr -> FindMinimum p = Undefined f -> f = MissingReturn.
Proof.
  revert f. induction p as [|a k v mx h l IHl r _]; intros f Hn; [congruence|].
  cbn [FindMinimum]. destruct l as [|la lk lv lm lh ll lr]; cbn [is_null].
  - discriminate.
  - destruct (FindMinimum (Node la lk lv lm lh ll lr)) as [x|g] eqn:E;
      cbn [bind]; intros H; inv H; [reflexivity|].
    apply IHl; [discriminate | reflexivity].
Qed.

(** X17.  [FindMinimum(node)] on a null pointer dereferences it.  On a node
    without a left child it returns that node, which in a search tree holds
    the smallest [lo] of the subtree.  On a node with a left child it
    descends to the leftmost node, drops the result and flows off the end of
    the function, however deep the subtree. *)
Theorem FindMinimum_outcome p :
  (p = nullptr -> FindMinimum p = Undefined NullDeref) /\
  (p <> nullptr -> left_of p = nullptr ->
     FindMinimum p = Ok p /\
     (bst p -> exists e, entry_of p = Some e /\
                 Forall (fun e' => lo_of e <= lo_of e') (entries p))) /\
  (left_of p <> nullptr -> FindMinimum p = Undefined MissingReturn).
Proof.
  split; [|split].
  - intros ->. reflexivity.
  - intros Hn Hl. destruct p as [|a k v mx h l r]; [congruence|].
    simpl in Hl. subst l. split; [reflexivity|].
    intros (_ & Fr & _). exists (k, v). split; [reflexivity|].
    cbn [entries app]. constructor; [unfold lo_of; simpl; lia|].
    eapply Forall_impl; [|exact Fr]. unfold lo_of. simpl. intros; lia.
  - intros Hl. destruct p as [|a k v mx h l r]; [now destruct Hl|].
    simpl in Hl.
    destruct (FindMinimum (Node a k v mx h l r)) as [x|f] eqn:E.
    + apply FindMinimum_Ok in E as (_ & a' & k' & v' & m' & h' & r' & E).
      congruence.
    + assert (Hn : Node a k v mx h l r <> nullptr) by discriminate.
      now rewrite (FindMinimum_fault _ _ Hn E).
Qed.

End MoreFind.

(** ** The further properties on the small trees *)

(** Closed goals on the small trees, by evaluation. *)
Ltac concrete :=
  vm_compute;
  repeat first [split | constructor];
  try (intro; discriminate); try reflexivity; auto.

Lemma Balance_restores_balance_witness :
  exists t1 t,
    Balance example_chain = Ok t1 /\ store_height t1 = Ok t /\
    heights_exact t /\ balanced t /\ entries t = entries example_chain.
Proof.
  destruct (Balance_restores_balance 0%nat (mkKey 1 2) "a"%string 3 1 nullptr
              (Node 1%nat (mkKey 2 3) "b"%string 4 1 nullptr
                 (Node 2%nat (mkKey 3 4) "c"%string 4 0 nullptr nullptr)))
    as (t1 & t & E1 & E2 & He & Hb & En & _).
  - exact I.
  - simpl. repeat split; reflexivity.
  - exact I.
  - simpl. repeat split; lia.
  - simpl. lia.
  - exists t1, t. split; [exact E1|]. split; [exact E2|].
    split; [exact He|]. split; [exact Hb | exact En].
Defined.

Lemma rotations_are_inverse_witness :
  exists t, RightRotation example_tree = Ok t /\ LeftRotation t = Ok example_tree.
Proof.
  eexists. split; [reflexivity|].
  apply (proj1 (rotations_are_inverse example_tree _ eq_refl)); reflexivity.
Defined.

Lemma Insert_is_upsert_witness :
  exists p m1,
    Insert 1 2 "a"%string {| m_pRoot := Node 0%nat (mkKey 2 3) "b"%string 3 0 nullptr nullptr;
                      next_addr := 1%nat; released := [] |} = Ok (p, m1) /\
    valid (m_pRoot m1) /\
    entries (m_pRoot m1) = [(mkKey 1 2, "a"%string); (mkKey 2 3, "b"%string)].
Proof.
  destruct (Insert_is_upsert 1 2 "a"%string
              {| m_pRoot := Node 0%nat (mkKey 2 3) "b"%string 3 0 nullptr nullptr;
                 next_addr := 1%nat; released := [] |})
    as (p & m1 & E & Hv & _ & _ & En & _).
  - lia.
  - lia.
  - concrete.
  - exists p, m1. split; [exact E|]. split; [exact Hv|]. rewrite En. reflexivity.
Defined.

Lemma Insert_present_replaces_value_witness :
  Insert 2 9 "z"%string {| m_pRoot := Node 0%nat (mkKey 2 3) "b"%string 3 0 nullptr nullptr;
                    next_addr := 1%nat; released := [] |}
  = Ok (Node 0%nat (mkKey 2 3) "z"%string 3 0 nullptr nullptr,
        {| m_pRoot := Node 0%nat (mkKey 2 3) "z"%string 3 0 nullptr nullptr;
           next_addr := 2%nat; released := [] |}).
Proof.
  destruct (Insert_present_replaces_value 2 9 "z"%string
              {| m_pRoot := Node 0%nat (mkKey 2 3) "b"%string 3 0 nullptr nullptr;
                 next_addr := 1%nat; released := [] |} (mkKey 2 3) "b"%string)
    as (E & _).
  - lia.
  - concrete.
  - simpl. auto.
  - reflexivity.
  - exact E.
Defined.

Lemma Insert_allocates_iff_fresh_witness :
  exists p m1,
    Insert 5 10 "v"%string empty_map = Ok (p, m1) /\
    Permutation [0%nat] (addrs (m_pRoot m1)) /\ ownership_ok m1.
Proof.
  do 2 eexists. split; [reflexivity|].
  destruct (Insert_allocates_iff_fresh 5 10 "v"%string empty_map _ _
              ltac:(lia) eq_refl) as (_ & _ & Hf & Ho).
  split; [apply Hf; reflexivity | apply Ho; concrete].
Defined.

Lemma inserts_commute_witness :
  exists m12 m21,
    run [OpInsert 1 2 "a"%string; OpInsert 3 4 "c"%string] empty_map = Ok m12 /\
    run [OpInsert 3 4 "c"%string; OpInsert 1 2 "a"%string] empty_map = Ok m21 /\
    entries (m_pRoot m12) = entries (m_pRoot m21).
Proof.
  apply (inserts_commute 1 2 "a"%string 3 4 "c"%string empty_map).
  - concrete.
  - lia.
Defined.

Lemma inserts_run_to_a_valid_tree_witness :
  exists m,
    run [OpInsert 1 2 "a"%string; OpInsert 2 3 "b"%string; OpInsert 3 4 "c"%string] empty_map = Ok m /\
    valid (m_pRoot m) /\ ownership_ok m /\ released m = [] /\
    entries (m_pRoot m) = [(mkKey 1 2, "a"%string); (mkKey 2 3, "b"%string); (mkKey 3 4, "c"%string)].
Proof.
  apply (inserts_run_to_a_valid_tree
           [OpInsert 1 2 "a"%string; OpInsert 2 3 "b"%string; OpInsert 3 4 "c"%string]).
  repeat constructor; simpl; lia.
Defined.

Lemma Delete_absent_is_noop_witness : Delete 7 example_map = Ok example_map.
Proof.
  apply Delete_absent_is_noop.
  - concrete.
  - vm_compute. intuition discriminate.
Defined.

Lemma Delete_returns_iff_deletable_witness :
  defined (Delete 2 example_map) /\
  (forall m2, Delete 2 example_map = Ok m2 ->
     entries (m_pRoot m2) = [(mkKey 1 2, "a"%string); (mkKey 3 4, "c"%string)]).
Proof.
  destruct (Delete_returns_iff_deletable 2 example_map) as (Hd & Hr).
  - concrete.
  - split; [apply Hd; reflexivity|].
    intros m2 E. destruct (Hr m2 E) as (_ & En & _). rewrite En. reflexivity.
Defined.

Lemma Delete_destroys_one_object_witness :
  exists t' rel,
    Delete_node 2 example_tree = Ok (t', rel) /\
    rel = [2%nat] /\ In (0%nat, (mkKey 3 4, "c"%string)) (cells t') /\
    ~ In 2%nat (addrs t').
Proof.
  do 2 eexists. split; [reflexivity|].
  edestruct (Delete_destroys_one_object 2 example_tree 0%nat (mkKey 2 3) "b"%string 4 1
              (Node 1%nat (mkKey 1 2) "a"%string 2 0 nullptr nullptr)
              (Node 2%nat (mkKey 3 4) "c"%string 4 0 nullptr nullptr))
    as (_ & H2).
  - simpl. repeat split; reflexivity.
  - simpl. repeat constructor; simpl; intuition lia.
  - reflexivity.
  - reflexivity.
  - destruct H2 as (ra & rk & rv & G1 & G2 & G3 & G4 & G5);
      [discriminate | discriminate |].
    simpl in G1, G2. injection G1 as <-. injection G2 as <- <-.
    split; [exact G3|]. split; [exact G4 | exact G5].
Defined.

Lemma insert_fresh_then_delete_witness :
  exists p m1 m2,
    Insert 5 10 "v"%string example_map = Ok (p, m1) /\
    Delete 5 m1 = Ok m2 /\
    entries (m_pRoot m2) = entries (m_pRoot example_map) /\
    shape_ok (m_pRoot m2).
Proof.
  apply (insert_fresh_then_delete 5 10 "v"%string example_map).
  - lia.
  - concrete.
  - vm_compute. intuition discriminate.
Defined.

Lemma run_refines_sorted_list_witness :
  exists m',
    run [OpInsert 2 3 "b"%string; OpInsert 1 2 "a"%string; OpDelete 2] empty_map = Ok m' /\
    shape_ok (m_pRoot m') /\ ownership_ok m' /\
    entries (m_pRoot m') = [(mkKey 1 2, "a"%string)].
Proof.
  eexists. split; [reflexivity|].
  exact (run_refines_sorted_list
           [OpInsert 2 3 "b"%string; OpInsert 1 2 "a"%string; OpDelete 2] empty_map _
           empty_map_shape_ok empty_map_ownership_ok eq_refl).
Defined.

Lemma height_is_logarithmic_witness :
  exists m,
    run [OpInsert 1 2 "a"%string; OpInsert 2 3 "b"%string; OpInsert 3 4 "c"%string] empty_map = Ok m /\
    GetHeight (m_pRoot m) = depth (m_pRoot m) /\
    2 ^ ((GetHeight (m_pRoot m) + 2) / 2)
      <= Z.of_nat (List.length (entries (m_pRoot m))) + 1.
Proof.
  eexists. split; [reflexivity|].
  exact (height_is_logarithmic
           [OpInsert 1 2 "a"%string; OpInsert 2 3 "b"%string; OpInsert 3 4 "c"%string] _ eq_refl).
Defined.

Lemma cached_max_bounds_subtree_witness :
  Forall (fun e => hi (fst e) <= GetMax example_tree) (entries example_tree) /\
  -1 <= GetMax example_tree /\
  (GetMax example_tree = -1 \/
   exists e, In e (entries example_tree) /\ hi (fst e) = GetMax example_tree).
Proof.
  apply cached_max_bounds_subtree. simpl. repeat split; reflexivity.
Defined.

Lemma cached_max_stays_an_upper_bound_witness :
  exists m,
    run [OpInsert 2 3 "b"%string; OpInsert 1 20 "a"%string; OpInsert 3 4 "c"%string; OpDelete 1]
      empty_map = Ok m /\
    GetMax (m_pRoot m) = 20 /\
    entries (m_pRoot m) = [(mkKey 2 3, "b"%string); (mkKey 3 4, "c"%string)] /\
    max_upper (m_pRoot m) /\
    Forall (fun e => hi (fst e) <= GetMax (m_pRoot m)) (entries (m_pRoot m)).
Proof.
  eexists. split; [reflexivity|]. split; [reflexivity|]. split; [reflexivity|].
  apply (cached_max_stays_an_upper_bound
           [OpInsert 2 3 "b"%string; OpInsert 1 20 "a"%string; OpInsert 3 4 "c"%string; OpDelete 1]).
  - repeat constructor; simpl; lia.
  - reflexivity.
Defined.

Lemma Find_returns_only_at_the_root_witness :
  Find 2 3 example_map = Ok example_tree /\
  In (mkKey 1 2, "a"%string) (entries example_tree) /\ overlaps 1 2 (mkKey 1 2) = true /\
  Find 1 2 example_map = Undefined MissingReturn.
Proof.
  destruct (Find_returns_only_at_the_root 2 3 example_map) as (H1 & _).
  destruct (Find_returns_only_at_the_root 1 2 example_map) as (_ & H2).
  split; [apply H1; right; reflexivity|].
  split; [simpl; auto|]. split; [reflexivity|].
  apply H2; [discriminate | reflexivity].
Defined.

Lemma FindMinimum_outcome_witness :
  FindMinimum (right_of example_tree) = Ok (right_of example_tree) /\
  FindMinimum example_tree = Undefined MissingReturn.
Proof.
  destruct (FindMinimum_outcome (right_of example_tree)) as (_ & H1 & _).
  destruct (FindMinimum_outcome example_tree) as (_ & _ & H2).
  split; [apply H1; [discriminate | reflexivity] | apply H2; discriminate].
Defined.
